(** * tls-scrape: the scan engine's address, batching, probing and
      error-aggregation code, embedded in Rocq.

    Go values are modelled as follows.
    - [int] is [Z] (no operation below can leave the 64-bit range: every
      integer is an index into, or the length of, a slice held in memory).
    - [byte] is a [Z] in [0, 256); arithmetic on bytes wraps modulo 256 and
      is written out.  [net.IP] and [net.IPMask] are lists of bytes.
    - a slice is a list; indexing outside the slice panics, which the
      [outcome] type records.
    - [error] is [option string]: [None] is Go's [nil], [Some msg] an error
      whose [Error()] text is [msg].
    - [map[string]error] is stdpp's [gmap string error]; the order in which a
      [range] loop visits it is any permutation of its entries. *)

From Stdlib Require Import ZArith Lia Ascii String.
From Equations Require Import Equations.
From stdpp Require Import gmap strings pretty list fin_maps.

#[local] Open Scope Z_scope.

(** ** Calls that may panic *)

Inductive outcome (A : Type) : Type :=
  | Returns (a : A)
  | Panics (msg : string).
Arguments Returns {A} a.
Arguments Panics {A} msg.

#[global] Instance outcome_ret : MRet outcome := fun _ a => Returns a.
#[global] Instance outcome_bind : MBind outcome := fun _ _ k m =>
  match m with
  | Returns a => k a
  | Panics msg => Panics msg
  end.

(** [s[i]] on a slice. *)
Definition index {A} (s : list A) (i : nat) : outcome A :=
  match s !! i with
  | Some a => Returns a
  | None => Panics "index out of range"
  end.

(** Go's [error] interface value. *)
Abbreviation error := (option string).

Module helper.

(** ** Package [net]: the parts of the Go standard library that
    [internal/helper/ip.go] calls. *)

Abbreviation IP := (list Z).
Abbreviation IPMask := (list Z).

Definition IPv4len : nat := 4.
Definition IPv6len : nat := 16.

Definition is_byte (b : Z) : Prop := 0 <= b < 256.
Definition wf_ip (ip : IP) : Prop := Forall is_byte ip.

Definition v4InV6Prefix : list Z := [0; 0; 0; 0; 0; 0; 0; 0; 0; 0; 255; 255].

Definition isZeros (p : list Z) : bool := forallb (Z.eqb 0) p.
Definition allFF (p : list Z) : bool := forallb (Z.eqb 255) p.

Definition bytes_eqb (a b : list Z) : bool := bool_decide (a = b).

(** [ip.To4()]: [None] is the nil result. *)
Definition To4 (ip : IP) : option IP :=
  if (length ip =? IPv4len)%nat then Some ip
  else if (length ip =? IPv6len)%nat
          && isZeros (take 10 ip)
          && bool_decide (ip !! 10%nat = Some 255)
          && bool_decide (ip !! 11%nat = Some 255)
       then Some (drop 12 ip)
       else None.

(** [ip.Mask(mask)]: [None] is the nil result. *)
Definition Mask (ip : IP) (mask : IPMask) : option IP :=
  let mask :=
    if (length mask =? IPv6len)%nat && (length ip =? IPv4len)%nat
       && allFF (take 12 mask)
    then drop 12 mask else mask in
  let ip :=
    if (length mask =? IPv4len)%nat && (length ip =? IPv6len)%nat
       && bytes_eqb (take 12 ip) v4InV6Prefix
    then drop 12 ip else ip in
  if (length ip =? length mask)%nat
  then Some (zip_with Z.land ip mask)
  else None.

(** [^b] on a byte. *)
Definition byte_not (b : Z) : Z := Z.lxor b 255.

(** The loop of [net.CIDRMask]: [l] bytes remain to be filled, [n] one-bits
    remain to be placed. *)
Fixpoint CIDRMask_loop (l : nat) (n : Z) : IPMask :=
  match l with
  | O => []
  | S l' =>
      if 8 <=? n then 255 :: CIDRMask_loop l' (n - 8)
      else byte_not (Z.shiftr 255 n) :: CIDRMask_loop l' 0
  end.

(** [net.CIDRMask(ones, bits)]: [None] is the nil result. *)
Definition CIDRMask (ones bits : Z) : option IPMask :=
  if negb (bits =? 8 * Z.of_nat IPv4len) && negb (bits =? 8 * Z.of_nat IPv6len)
  then None
  else if (ones <? 0) || (bits <? ones) then None
  else Some (CIDRMask_loop (Z.to_nat (bits / 8)) ones).

(** A [netip.Addr] without zone: an IPv4 address of 4 bytes, or an IPv6
    address of 16 bytes (an IPv4-mapped one included). *)
Inductive Addr :=
  | Addr4 (b : list Z)
  | Addr6 (b : list Z).

Definition BitLen (a : Addr) : Z :=
  match a with Addr4 _ => 32 | Addr6 _ => 128 end.

Definition As16 (a : Addr) : IP :=
  match a with Addr4 b => v4InV6Prefix ++ b | Addr6 b => b end.

(** What the text of a CIDR reads as: [net.ParseCIDR] cuts it at the slash,
    reads the part before with [netip.ParseAddr] and the part after as a
    decimal number.  The model starts from that reading; [Malformed] stands
    for every text without one. *)
Inductive cidr_text :=
  | Malformed
  | Reading (a : Addr) (n : Z).

Record IPNet := { IPNet_IP : option IP; IPNet_Mask : IPMask }.

(** [net.ParseCIDR]: the address in 16-byte form and the network, or an
    error. *)
Definition ParseCIDR (s : cidr_text) : (IP * IPNet) + string :=
  match s with
  | Malformed => inr "invalid CIDR address"
  | Reading a n =>
      if (n <? 0) || (BitLen a <? n) then inr "invalid CIDR address"
      else match CIDRMask n (BitLen a) with
           | Some m =>
               inl (As16 a, {| IPNet_IP := Mask (As16 a) m; IPNet_Mask := m |})
           | None => inr "invalid CIDR address"
           end
  end.

(** ** [internal/helper/ip.go] *)

Record IPRange := { Start : IP; End : IP }.

(** The loop of [parseSubnet] that sets the host bits of [end]: [todo]
    iterations remain, the next one at index [i]. *)
Fixpoint parseSubnet_loop (end_ : IP) (mask : IPMask) (i todo : nat)
  : outcome IP :=
  match todo with
  | O => Returns end_
  | S todo' =>
      m ← index mask i;
      e ← index end_ i;
      parseSubnet_loop (<[i := Z.lor e (byte_not m)]> end_) mask (S i) todo'
  end.

(** [parseSubnet].  A nil [start] (from [ip.Mask]) has length 0 and copies
    like the empty slice, which stands for it here. *)
Definition parseSubnet (cidr : cidr_text) : outcome (IPRange + string) :=
  match ParseCIDR cidr with
  | inr err => Returns (inr err)
  | inl (ip, ipNet) =>
      let ip := match To4 ip with Some ip4 => ip4 | None => ip end in
      let start := default [] (Mask ip (IPNet_Mask ipNet)) in
      let end_ := start in
      end_ ← parseSubnet_loop end_ (IPNet_Mask ipNet) 0
                (length (IPNet_Mask ipNet));
      Returns (inl {| Start := start; End := end_ |})
  end.

(** The loop of [CompareIPs]: [todo] iterations remain, the next one at
    index [i]. *)
Fixpoint CompareIPs_loop (ip1 ip2 : IP) (i todo : nat) : outcome Z :=
  match todo with
  | O => Returns 0
  | S todo' =>
      a ← index ip1 i;
      b ← index ip2 i;
      if a <? b then Returns (-1)
      else if b <? a then Returns 1
      else CompareIPs_loop ip1 ip2 (S i) todo'
  end.

Definition CompareIPs (ip1 ip2 : IP) : outcome Z :=
  if negb (length ip1 =? length ip2)%nat then
    match To4 ip1, To4 ip2 with
    | Some ip1', Some ip2' => CompareIPs_loop ip1' ip2' 0 (length ip1')
    | _, _ => Returns 0
    end
  else CompareIPs_loop ip1 ip2 0 (length ip1).

(** The loop of [NextIP]: the indices below [k] are still to be visited,
    from [k - 1] downwards.  [next[i]] is in range since [i < len(next)]. *)
Fixpoint NextIP_loop (next : IP) (k : nat) : IP :=
  match k with
  | O => next
  | S i =>
      let b := (default 0 (next !! i) + 1) mod 256 in
      let next := <[i := b]> next in
      if 0 <? b then next else NextIP_loop next i
  end.

Definition NextIP (ip : IP) : IP := NextIP_loop ip (length ip).

(** The loop of [GetIPsInRange].  Nothing bounds the number of iterations in
    the source, so the model counts them: [None] means that [fuel]
    iterations did not reach the loop's exit. *)
Fixpoint GetIPsInRange_loop (fuel : nat) (ip End : IP) (ips : list IP)
  : option (outcome (list IP)) :=
  match fuel with
  | O => None
  | S fuel' =>
      match CompareIPs ip End with
      | Panics msg => Some (Panics msg)
      | Returns c =>
          if c <=? 0
          then GetIPsInRange_loop fuel' (NextIP ip) End (ips ++ [ip])
          else Some (Returns ips)
      end
  end.

Definition GetIPsInRange (fuel : nat) (ipRange : IPRange)
  : option (outcome (list IP)) :=
  GetIPsInRange_loop fuel (Start ipRange) (End ipRange) [].

(** ** Specification vocabulary for addresses *)

(** The address read as a big-endian integer. *)
Definition ip_val (ip : IP) : Z := fold_left (fun acc b => acc * 256 + b) ip 0.

(** Byte-wise lexicographic comparison, on the lists themselves. *)
Fixpoint lex_compare (a b : list Z) : Z :=
  match a, b with
  | x :: a', y :: b' =>
      if x <? y then -1 else if y <? x then 1 else lex_compare a' b'
  | _, _ => 0
  end.

(** The bytes of an address. *)
Definition addr_bytes (a : Addr) : list Z :=
  match a with Addr4 b => b | Addr6 b => b end.

(** An address that [parseSubnet] keeps in its own family: IPv4, or IPv6
    that is not IPv4-mapped. *)
Definition plain_addr (a : Addr) : Prop :=
  match a with
  | Addr4 b => length b = 4%nat
  | Addr6 b => length b = 16%nat /\ To4 b = None
  end.

End helper.

(** ** Package [strings] *)

Fixpoint HasPrefix (s prefix : string) : bool :=
  match prefix, s with
  | EmptyString, _ => true
  | String c prefix', String d s' => bool_decide (c = d) && HasPrefix s' prefix'
  | String _ _, EmptyString => false
  end.

Fixpoint Contains (s substr : string) : bool :=
  HasPrefix s substr
  || match s with
     | EmptyString => false
     | String _ s' => Contains s' substr
     end.

Definition HasSuffix (s suffix : string) : bool :=
  HasPrefix (String.rev s) (String.rev suffix).

Definition TrimSuffix (s suffix : string) : string :=
  if HasSuffix s suffix
  then String.substring 0 (String.length s - String.length suffix) s
  else s.

(** The newline character of Go's ["\n"]. *)
Definition nl : string := String "010"%char EmptyString.

(** ** Package [crypto/x509]: the certificate fields and the verification
    results the scan engine reads. *)

Module x509.

(** [time.Time] is the instant as an integer; [Before] and [After] are the
    strict orders on instants. *)
Abbreviation Time := Z.

Record Certificate := {
  SerialNumber : Z;
  Subject_CommonName : string;
  Issuer : string;               (* the rendering [cert.Issuer.String()] *)
  NotBefore : Time;
  NotAfter : Time;
  DNSNames : list string;
  CRLDistributionPoints : list string;
  OCSPServer : list string
}.

(** [x509.InvalidReason] is an integer code. *)
Definition NotAuthorizedToSign : Z := 0.
Definition Expired : Z := 1.
Definition CANotAuthorizedForThisName : Z := 2.
Definition TooManyIntermediates : Z := 3.
Definition IncompatibleUsage : Z := 4.

(** The dynamic type of the error [cert.Verify] returns, with the text of
    its [Error()]. *)
Inductive VerifyError :=
  | CertificateInvalidError (Reason : Z) (msg : string)
  | HostnameError (msg : string)
  | UnknownAuthorityError (msg : string)
  | OtherVerifyError (msg : string).

Definition VerifyError_Error (e : VerifyError) : string :=
  match e with
  | CertificateInvalidError _ msg => msg
  | HostnameError msg => msg
  | UnknownAuthorityError msg => msg
  | OtherVerifyError msg => msg
  end.

(** A [CertPool] is the certificates added to it. *)
Abbreviation CertPool := (list Certificate).

(** [DNSName] is empty when no name is to be verified. *)
Record VerifyOptions := {
  DNSName : string;
  Intermediates : CertPool;
  Roots : CertPool
}.

End x509.

Module scraper.

(** ** [pkg/scraper/utils.go] *)

(** [slice[lo:hi]] for [0 <= lo <= hi <= len(slice)]. *)
Definition subslice {A} (slice : list A) (lo hi : Z) : list A :=
  take (Z.to_nat (hi - lo)) (drop (Z.to_nat lo) slice).

(** The loop of [ChunkSlice] (and of [ChunkIPSlice], the same code at
    another element type), entered with a positive [chunkSize]. *)
Equations? ChunkSlice_loop {A} (slice : list A) (chunkSize : positive)
    (i : Z) (chunks : list (list A)) : list (list A)
    by wf (Z.to_nat (Z.of_nat (length slice) - i)) lt :=
  ChunkSlice_loop slice chunkSize i chunks
    with decide (i < Z.of_nat (length slice)) := {
    | left _ =>
        let end_ := i + Z.pos chunkSize in
        let end_ := if decide (Z.of_nat (length slice) < end_)
                    then Z.of_nat (length slice) else end_ in
        ChunkSlice_loop slice chunkSize (i + Z.pos chunkSize)
          (chunks ++ [subslice slice i end_])
    | right _ => chunks }.
Proof. lia. Qed.

(** [ChunkSlice]: the guard [chunkSize <= 0] is the match on the sign. *)
Definition ChunkSlice {A} (slice : list A) (chunkSize : Z) : list (list A) :=
  match chunkSize with
  | Z.pos p => ChunkSlice_loop slice p 0 []
  | _ => []
  end.

Definition IsConnectionError (err : error) : bool :=
  match err with
  | None => false
  | Some errStr => Contains errStr "dial tcp" || Contains errStr "connect:"
  end.

(** ** [pkg/scraper/errorHandler.go] *)

Record MultiError := { Errors : gmap string error }.

(** A [range] loop over a map visits its entries in an order the runtime
    picks: [visit m] is the order of one loop over [m], and [range_order]
    says which orders there are. *)
Definition range_order (m : gmap string error) (order : list (string * error))
  : Prop :=
  order ≡ₚ map_to_list m.

(** [err.Error()]: calling it on the nil error panics. *)
Definition error_Error (err : error) : outcome string :=
  match err with
  | Some msg => Returns msg
  | None => Panics "nil pointer dereference"
  end.

(** The loop of [MultiError.Error] over the entries in the order of the
    visit. *)
Fixpoint Error_loop (order : list (string * error)) (errMsg : string)
  : outcome string :=
  match order with
  | [] => Returns errMsg
  | (domain, err) :: order' =>
      msg ← error_Error err;
      Error_loop order'
        (errMsg +:+ ("Domain: " +:+ domain +:+ ", Error: " +:+ msg +:+ nl))
  end.

Definition Error (me : MultiError)
    (visit : gmap string error -> list (string * error)) : outcome string :=
  Error_loop (visit (Errors me)) ("Multiple errors occurred:" +:+ nl).

(** The other version of the file ([src/unnamed/part_008]): two lines per
    entry, and a nil error rendered as [<nil>]. *)
Fixpoint Error_loop' (order : list (string * error)) (errMsg : string)
  : string :=
  match order with
  | [] => errMsg
  | (domain, err) :: order' =>
      Error_loop' order'
        (match err with
         | Some msg =>
             errMsg +:+ ("Domain: " +:+ domain +:+ nl +:+ "Error: " +:+ msg +:+ nl)
         | None =>
             errMsg +:+ ("Domain: " +:+ domain +:+ nl +:+ "Error: <nil>" +:+ nl)
         end)
  end.

Definition Error' (me : MultiError)
    (visit : gmap string error -> list (string * error)) : string :=
  Error_loop' (visit (Errors me)) ("Multiple errors occurred:" +:+ nl).

(** The line of one entry, and the concatenation of lines. *)
Definition entry_line (domain msg : string) : string :=
  "Domain: " +:+ domain +:+ ", Error: " +:+ msg +:+ nl.

Definition join (lines : list string) : string := foldr String.append "" lines.

(** ** [scraper.go] and [ip_scraper.go] of package [scraper] *)

Record CertDetails := {
  Domain : string;
  Serial : string;
  NotBefore : string;
  NotAfter : string;
  Issuer : string;
  CRL : list string;
  OCSPServer : list string;
  CertChain : list x509.Certificate;
  Valid : bool;
  ValidationErrs : list string
}.

(** [&CertDetails{}] *)
Definition CertDetails_zero : CertDetails :=
  {| Domain := ""; Serial := ""; NotBefore := ""; NotAfter := ""; Issuer := "";
     CRL := []; OCSPServer := []; CertChain := []; Valid := false;
     ValidationErrs := [] |}.

Definition set_CertChain (certs : list x509.Certificate) (cd : CertDetails)
  : CertDetails :=
  {| Domain := Domain cd; Serial := Serial cd; NotBefore := NotBefore cd;
     NotAfter := NotAfter cd; Issuer := Issuer cd; CRL := CRL cd;
     OCSPServer := OCSPServer cd; CertChain := certs; Valid := Valid cd;
     ValidationErrs := ValidationErrs cd |}.

(** [cd.Valid = false] *)
Definition set_invalid (cd : CertDetails) : CertDetails :=
  {| Domain := Domain cd; Serial := Serial cd; NotBefore := NotBefore cd;
     NotAfter := NotAfter cd; Issuer := Issuer cd; CRL := CRL cd;
     OCSPServer := OCSPServer cd; CertChain := CertChain cd; Valid := false;
     ValidationErrs := ValidationErrs cd |}.

(** [cd.ValidationErrs = append(cd.ValidationErrs, reason)] *)
Definition append_reason (reason : string) (cd : CertDetails) : CertDetails :=
  {| Domain := Domain cd; Serial := Serial cd; NotBefore := NotBefore cd;
     NotAfter := NotAfter cd; Issuer := Issuer cd; CRL := CRL cd;
     OCSPServer := OCSPServer cd; CertChain := CertChain cd; Valid := Valid cd;
     ValidationErrs := ValidationErrs cd ++ [reason] |}.

(** What a dialer hands back: a connection that can report its TLS state,
    with the peer's chain, or one of another dynamic type (named as [%T]
    prints it). *)
Inductive Conn :=
  | TLSConn (PeerCertificates : list x509.Certificate)
  | OtherConn (type_name : string).

(** [Dialer.Dial(network, address)] *)
Abbreviation Dialer := (string -> string -> Conn + string).

(** [IPCertDetails]; [Details] is the embedded [*CertDetails], nil until
    the fetch sets it. *)
Record IPCertDetails := {
  Details : option CertDetails;
  IP : string;
  Hostname : string;
  HostnameInCert : bool;
  SANs : list string
}.

Definition IPCertDetails_zero : IPCertDetails :=
  {| Details := None; IP := ""; Hostname := ""; HostnameInCert := false;
     SANs := [] |}.

(** The inner switch on [e.Reason], written three times in the source. *)
Definition invalid_reason (Reason : Z) : string :=
  if Reason =? x509.Expired
  then "Certificate has expired or is not yet valid"
  else if Reason =? x509.NotAuthorizedToSign
  then "Certificate is not authorized to sign other certificates"
  else if Reason =? x509.IncompatibleUsage
  then "Certificate usage is incompatible with the intended usage"
  else if Reason =? x509.CANotAuthorizedForThisName
  then "CA is not authorized for this name"
  else if Reason =? x509.TooManyIntermediates
  then "Too many intermediate certificates"
  else "Certificate is invalid (reason code: " +:+ pretty Reason +:+ ")".

(** The type switch on the error of [cert.Verify].  [name_case] is the text
    appended for an [x509.HostnameError]; the switch of the branch without
    hostname has no such case, and the error falls to the default. *)
Definition validation_reason (name_case : option string) (err : x509.VerifyError)
  : string :=
  match err, name_case with
  | x509.CertificateInvalidError Reason _, _ => invalid_reason Reason
  | x509.HostnameError _, Some text => text
  | x509.UnknownAuthorityError _, _ =>
      "Certificate signed by unknown authority (possibly self-signed)"
  | _, _ => "Certificate validation error: " +:+ x509.VerifyError_Error err
  end.

(** [isHostnameInCert] *)
Definition isHostnameInCert (cert : x509.Certificate) (hostname : string)
  : bool :=
  if bool_decide (x509.Subject_CommonName cert = hostname) then true
  else existsb (fun san => bool_decide (san = hostname)) (x509.DNSNames cert).

Definition extractSANs (cert : x509.Certificate) : list string :=
  x509.DNSNames cert.

Section Prober.

(** The surroundings of one probe: the trust store, chain verification, the
    clock read after verification, the rendering of values, and the reverse
    lookup ([None]: no answer within the 5 seconds of the timer). *)
Variable SystemCertPool : x509.CertPool + string.
Variable Verify : x509.Certificate -> x509.VerifyOptions -> option x509.VerifyError.
Variable now : x509.Time.
Variable Time_String : x509.Time -> string.
Variable IP_String : list Z -> string.
Variable LookupAddr : string -> option (list string + string).

(** The leaf's own validity window, checked after chain verification. *)
Definition check_window (cert : x509.Certificate) (cd : CertDetails)
  : CertDetails :=
  let cd :=
    if now <? x509.NotBefore cert
    then append_reason "Certificate is not yet valid" (set_invalid cd)
    else cd in
  if x509.NotAfter cert <? now
  then append_reason "Certificate has expired" (set_invalid cd)
  else cd.

(** Pools, [cert.Verify(opts)] and the recording of its error. *)
Definition verify_chain (cert : x509.Certificate)
    (certs : list x509.Certificate) (DNSName : string)
    (name_case : option string) (cd : CertDetails) : CertDetails :=
  let roots := match SystemCertPool with inl roots => roots | inr _ => [] end in
  let intermediates := drop 1 certs in
  let opts := {| x509.DNSName := DNSName;
                 x509.Intermediates := intermediates;
                 x509.Roots := roots |} in
  match Verify cert opts with
  | None => cd
  | Some err => append_reason (validation_reason name_case err) (set_invalid cd)
  end.

(** [fetchFromDomainWithDialer]: the receiver after the call, and the
    error. *)
Definition fetchFromDomainWithDialer (cd : CertDetails) (domain : string)
    (dialer : Dialer) : CertDetails * error :=
  match dialer "tcp" (domain +:+ ":443") with
  | inr err => (cd, Some err)
  | inl (OtherConn ty) =>
      (cd, Some ("expected a ConnectionStateGetter, got " +:+ ty))
  | inl (TLSConn certs) =>
      let cd := set_CertChain certs cd in
      match certs with
      | [] => (cd, Some ("no certificates found for domain " +:+ domain))
      | cert :: _ =>
          let cd :=
            {| Domain := domain;
               Serial := pretty (x509.SerialNumber cert);
               NotBefore := Time_String (x509.NotBefore cert);
               NotAfter := Time_String (x509.NotAfter cert);
               Issuer := x509.Issuer cert;
               CRL := x509.CRLDistributionPoints cert;
               OCSPServer := x509.OCSPServer cert;
               CertChain := CertChain cd;
               Valid := true;
               ValidationErrs := [] |} in
          let cd :=
            verify_chain cert certs domain
              (Some ("Certificate is not valid for domain: " +:+ domain)) cd in
          let cd := check_window cert cd in
          (cd, None)
      end
  end.

(** [reverseDNSLookup]: the race between the lookup and the timer is the
    case distinction on [LookupAddr]. *)
Definition reverseDNSLookup (ip : list Z) : string + string :=
  match LookupAddr (IP_String ip) with
  | Some (inr err) => inr err
  | Some (inl []) => inr ("no hostname found for IP " +:+ IP_String ip)
  | Some (inl (name :: _)) => inl (TrimSuffix name ".")
  | None =>
      inr ("reverse DNS lookup for IP " +:+ IP_String ip
           +:+ " timed out after 5 seconds")
  end.

(** [fetchFromIPWithDialer] *)
Definition fetchFromIPWithDialer (cd : IPCertDetails) (ip : list Z) (port : Z)
    (dialer : Dialer) : IPCertDetails * error :=
  let ipStr := IP_String ip in
  let address := ipStr +:+ ":" +:+ pretty port in
  match dialer "tcp" address with
  | inr err => (cd, Some err)
  | inl (OtherConn ty) =>
      (cd, Some ("expected a ConnectionStateGetter, got " +:+ ty))
  | inl (TLSConn []) => (cd, Some ("no certificates found for IP " +:+ ipStr))
  | inl (TLSConn ((cert :: _) as certs)) =>
      let details :=
        {| Domain := ipStr;
           Serial := pretty (x509.SerialNumber cert);
           NotBefore := Time_String (x509.NotBefore cert);
           NotAfter := Time_String (x509.NotAfter cert);
           Issuer := x509.Issuer cert;
           CRL := x509.CRLDistributionPoints cert;
           OCSPServer := x509.OCSPServer cert;
           CertChain := certs;
           Valid := true;
           ValidationErrs := [] |} in
      let '(hostname, inCert, details) :=
        match reverseDNSLookup ip with
        | inl hostname =>
            (hostname, isHostnameInCert cert hostname,
             verify_chain cert certs hostname
               (Some ("Certificate is not valid for hostname: " +:+ hostname))
               details)
        | inr _ =>
            (Hostname cd, HostnameInCert cd,
             verify_chain cert certs "" None details)
        end in
      let details := check_window cert details in
      ({| Details := Some details; IP := ipStr; Hostname := hostname;
          HostnameInCert := inCert; SANs := extractSANs cert |}, None)
  end.

End Prober.

(** ** [ScrapeTLS]: the goroutines of one call, as a transition system *)

Section Orchestrator.

(** [fetchFromDomain i site]: what the call [certInfo.fetchFromDomain(site)]
    of the goroutine started for the [i]-th element leaves in its fresh
    [CertDetails] and returns. *)
Variable fetchFromDomain : nat -> string -> CertDetails * error.

(** How far a goroutine has come: before [sem <- struct{}{}], holding a
    token, past [<-sem] with the result of its fetch, or returned. *)
Inductive phase :=
  | Waiting
  | Holding
  | Fetched (certInfo : CertDetails) (err : error)
  | Finished.

Record goroutine := { idx : nat; site : string; at_ : phase }.

(** [sem] is the number of tokens in the semaphore channel; [results] and
    [errorChan] are the values sent so far, oldest first.  Both channels
    have room for one value per goroutine, so no send on them blocks. *)
Record state := {
  goroutines : list goroutine;
  sem : Z;
  results : list CertDetails;
  errorChan : list (string * error)
}.

Definition spawn (websites : list string) : state :=
  {| goroutines :=
       imap (fun i site => {| idx := i; site := site; at_ := Waiting |}) websites;
     sem := 0; results := []; errorChan := [] |}.

Inductive step (concurrency : Z) : state -> state -> Prop :=
  | step_acquire gs1 gs2 i site sem results errorChan :
      sem < concurrency ->
      step concurrency
        {| goroutines := gs1 ++ {| idx := i; site := site; at_ := Waiting |} :: gs2;
           sem := sem; results := results; errorChan := errorChan |}
        {| goroutines := gs1 ++ {| idx := i; site := site; at_ := Holding |} :: gs2;
           sem := sem + 1; results := results; errorChan := errorChan |}
  | step_fetch gs1 gs2 i site sem results errorChan :
      step concurrency
        {| goroutines := gs1 ++ {| idx := i; site := site; at_ := Holding |} :: gs2;
           sem := sem; results := results; errorChan := errorChan |}
        {| goroutines :=
             gs1 ++ {| idx := i; site := site;
                       at_ := Fetched (fetchFromDomain i site).1
                                      (fetchFromDomain i site).2 |} :: gs2;
           sem := sem - 1; results := results; errorChan := errorChan |}
  | step_failed gs1 gs2 i site certInfo err sem results errorChan :
      err <> None ->
      step concurrency
        {| goroutines :=
             gs1 ++ {| idx := i; site := site; at_ := Fetched certInfo err |} :: gs2;
           sem := sem; results := results; errorChan := errorChan |}
        {| goroutines := gs1 ++ {| idx := i; site := site; at_ := Finished |} :: gs2;
           sem := sem; results := results;
           errorChan := errorChan ++ [(site, err)] |}
  | step_success gs1 gs2 i site certInfo sem results errorChan :
      step concurrency
        {| goroutines :=
             gs1 ++ {| idx := i; site := site; at_ := Fetched certInfo None |} :: gs2;
           sem := sem; results := results; errorChan := errorChan |}
        {| goroutines := gs1 ++ {| idx := i; site := site; at_ := Finished |} :: gs2;
           sem := sem; results := results ++ [certInfo];
           errorChan := errorChan |}.

(** The probes of one call, in the order of the targets: the target and
    what its goroutine's fetch yields. *)
Definition probes (websites : list string)
  : list (string * (CertDetails * error)) :=
  imap (fun i site => (site, fetchFromDomain i site)) websites.

Definition success_of (p : string * (CertDetails * error))
  : option CertDetails :=
  match p.2.2 with None => Some p.2.1 | Some _ => None end.

Definition failure_of (p : string * (CertDetails * error))
  : option (string * error) :=
  match p.2.2 with Some e => Some (p.1, Some e) | None => None end.

(** The records of the probes without error, and the failed targets with
    their errors. *)
Definition succeeded (websites : list string) : list CertDetails :=
  omap success_of (probes websites).

Definition failed (websites : list string) : list (string * error) :=
  omap failure_of (probes websites).

(** [wg.Wait()] returns: every goroutine has returned. *)
Definition all_finished (s : state) : Prop :=
  Forall (fun g => at_ g = Finished) (goroutines s).

(** What the caller's two [range] loops and the final test make of the
    closed channels: the records, and the error ([None] is nil). *)
Definition collect (s : state) : list CertDetails * option MultiError :=
  let details := results s in
  let multiError :=
    foldl (fun m '(domain, e) => <[domain := e]> m) ∅ (errorChan s) in
  if 0 <? Z.of_nat (size multiError)
  then (details, Some {| Errors := multiError |})
  else (details, None).

(** [ScrapeTLS websites concurrency] may return [r]. *)
Definition ScrapeTLS (websites : list string) (concurrency : Z)
    (r : list CertDetails * option MultiError) : Prop :=
  0 <= concurrency   (* [make(chan struct{}, concurrency)] does not panic *)
  /\ exists s, rtc (step concurrency) (spawn websites) s
               /\ all_finished s /\ r = collect s.

(** *** Bookkeeping for the proofs about the transition system *)

Definition probe_of (g : goroutine) : string * (CertDetails * error) :=
  (site g, fetchFromDomain (idx g) (site g)).

Definition is_finished (g : goroutine) : bool :=
  match at_ g with Finished => true | _ => false end.

Definition is_holding (g : goroutine) : bool :=
  match at_ g with Holding => true | _ => false end.

(** What a goroutine has sent on [results], and on [errorChan]. *)
Definition sent_result (g : goroutine) : option CertDetails :=
  if is_finished g then success_of (probe_of g) else None.

Definition sent_error (g : goroutine) : option (string * error) :=
  if is_finished g then failure_of (probe_of g) else None.

(** The number of steps a goroutine still has to take. *)
Definition rank (g : goroutine) : nat :=
  match at_ g with
  | Waiting => 3
  | Holding => 2
  | Fetched _ _ => 1
  | Finished => 0
  end.

Definition work_left (s : state) : nat := sum_list_with rank (goroutines s).

Definition holders (gs : list goroutine) : nat :=
  sum_list_with (fun g => if is_holding g then 1%nat else 0%nat) gs.

(** The invariant of the states a call of [ScrapeTLS websites] reaches. *)
Record consistent (websites : list string) (s : state) : Prop := {
  cons_probes : probe_of <$> goroutines s = probes websites;
  cons_fetched :
    Forall (fun g => forall certInfo err,
              at_ g = Fetched certInfo err ->
              fetchFromDomain (idx g) (site g) = (certInfo, err))
           (goroutines s);
  cons_results : results s ≡ₚ omap sent_result (goroutines s);
  cons_errors : errorChan s ≡ₚ omap sent_error (goroutines s);
  cons_sem : sem s = Z.of_nat (holders (goroutines s))
}.

End Orchestrator.

End scraper.

(** ** Package [ocsp] of the repository *)

Module ocsp.

(** [ocsp.Response] of [golang.org/x/crypto/ocsp]: the status code and the
    responder certificate embedded in the response, if any. *)
Record Response := {
  Status : Z;
  Certificate : option x509.Certificate
}.

Definition Good : Z := 0.
Definition Revoked : Z := 1.
Definition Unknown : Z := 2.

Record OCSPChecker := {
  Checker_Certificate : x509.Certificate;
  Checker_Issuer : x509.Certificate
}.

(** An HTTP request the checker made. *)
Record Post := { url : string; contentType : string; body : list Z }.

Section Checker.

(** Request encoding, the HTTP exchange (the response body, read in full),
    and response parsing. *)
Variable CreateRequest :
  x509.Certificate -> x509.Certificate -> list Z + string.
Variable http_Post : Post -> list Z + string.
Variable ParseResponse : list Z -> x509.Certificate -> Response + string.

(** [GetOCSPResp]: the requests made, and the response or the error. *)
Definition GetOCSPResp (o : OCSPChecker) : list Post * (Response + string) :=
  match x509.OCSPServer (Checker_Certificate o) with
  | [] => ([], inr "no OCSP server specified in cert")
  | server :: _ =>
      match CreateRequest (Checker_Certificate o) (Checker_Issuer o) with
      | inr err => ([], inr err)
      | inl ocspReq =>
          let post := {| url := server;
                         contentType := "application/ocsp-request";
                         body := ocspReq |} in
          match http_Post post with
          | inr err => ([post], inr err)
          | inl ocspResp =>
              match ParseResponse ocspResp (Checker_Issuer o) with
              | inr err => ([post], inr err)
              | inl resp =>
                  match Certificate resp with
                  | Some responder =>
                      match ParseResponse ocspResp responder with
                      | inr err => ([post], inr err)
                      | inl resp => ([post], inl resp)
                      end
                  | None => ([post], inl resp)
                  end
              end
          end
      end
  end.

(** [CheckOCSPStatus]: the requests made, and the error ([None] is nil). *)
Definition CheckOCSPStatus (o : OCSPChecker) : list Post * error :=
  match GetOCSPResp o with
  | (posts, inr err) => (posts, Some err)
  | (posts, inl ocspResp) =>
      if negb (Status ocspResp =? Good)
      then (posts, Some "invalid OCSP status")
      else (posts, None)
  end.

End Checker.

End ocsp.

(** ** Package [strconv] and [strings.Join] *)

(** The value of a decimal digit. *)
Definition digit_of (ch : ascii) : option Z :=
  let d := Z.of_N (N_of_ascii ch) - 48 in
  if (0 <=? d) && (d <=? 9) then Some d else None.

(** The digit loop of [strconv.Atoi]: [None] when a byte is not a digit. *)
Fixpoint digits_value (s : string) (n : Z) : option Z :=
  match s with
  | EmptyString => Some n
  | String ch s' =>
      match digit_of ch with
      | Some d => digits_value s' (n * 10 + d)
      | None => None
      end
  end.

(** [strconv.Atoi] on a 64-bit platform: an optional sign and at least one
    decimal digit, the value within the range of [int]; [None] is every
    error (the callers in this repository drop its text). *)
Definition Atoi (s : string) : option Z :=
  let '(neg, digits) :=
    match s with
    | String ch rest =>
        if Ascii.eqb ch "-" then (true, rest)
        else if Ascii.eqb ch "+" then (false, rest)
        else (false, s)
    | EmptyString => (false, s)
    end in
  match digits with
  | EmptyString => None
  | _ =>
      match digits_value digits 0 with
      | None => None
      | Some n =>
          let n := if neg then - n else n in
          if (- 2 ^ 63 <=? n) && (n <? 2 ^ 63) then Some n else None
      end
  end.

(** [strings.Join(elems, sep)] *)
Fixpoint Join (elems : list string) (sep : string) : string :=
  match elems with
  | [] => ""
  | [x] => x
  | x :: rest => x +:+ sep +:+ Join rest sep
  end.

(** ** The rest of [internal/helper/ip.go] *)

Module ip.
Import helper.

Section ParseIPOrSubnet.

(** The text layer of package [net]: [net.ParseIP] (the address in 16-byte
    form, or nil), and the reading of a CIDR text. *)
Variable ParseIP : string -> option IP.
Variable read_cidr : string -> cidr_text.

Definition ParseIPOrSubnet (ipOrSubnet : string) : outcome (IPRange + string) :=
  if Contains ipOrSubnet "/" then parseSubnet (read_cidr ipOrSubnet)
  else
    match ParseIP ipOrSubnet with
    | None => Returns (inr ("invalid IP address: " +:+ ipOrSubnet))
    | Some ip =>
        let ip := match To4 ip with Some ip4 => ip4 | None => ip end in
        Returns (inl {| Start := ip; End := ip |})
    end.

End ParseIPOrSubnet.

Definition ParsePort (port : string) : Z + string :=
  if bool_decide (port = "") then inl 443
  else
    match Atoi port with
    | None => inr ("invalid port number: " +:+ port)
    | Some portNum =>
        if (portNum <? 1) || (65535 <? portNum)
        then inr ("port number out of range: " +:+ pretty portNum)
        else inl portNum
    end.

End ip.

(** ** [internal/helper/io.go] *)

Module io.
Import scraper.

Section ReadCSV.

(** [os.Open] and [csv.Reader.ReadAll]: the records of the file, or the
    error of either call. *)
Variable ReadAll : string -> list (list string) + string.

(** The search for the header: the index of the first field equal to
    [csvheader], from [index] on, or -1. *)
Fixpoint find_column (fields : list string) (csvheader : string) (index : Z)
  : Z :=
  match fields with
  | [] => -1
  | header :: fields' =>
      if bool_decide (header = csvheader) then index
      else find_column fields' csvheader (index + 1)
  end.

(** The loop over the records after the header. *)
Fixpoint collect_column (lines : list (list string)) (colIndex : Z)
    (websites : list string) : outcome (list string) :=
  match lines with
  | [] => Returns websites
  | line :: lines' =>
      if colIndex <? Z.of_nat (length line)
      then cell ← index line (Z.to_nat colIndex);
           collect_column lines' colIndex (websites ++ [cell])
      else collect_column lines' colIndex websites
  end.

Definition ReadCSV (filename csvheader : string)
  : outcome (list string + string) :=
  match ReadAll filename with
  | inr err => Returns (inr err)
  | inl lines =>
      if bool_decide (length lines = 0%nat)
      then Returns (inr "empty CSV file")
      else
        header ← index lines 0;
        let colIndex := find_column header csvheader 0 in
        if colIndex =? -1
        then Returns (inr ("column header '" +:+ csvheader +:+ "' not found"))
        else websites ← collect_column (drop 1 lines) colIndex [];
             Returns (inl websites)
  end.

End ReadCSV.

Definition formatStringSlice (slice : list string) : string :=
  if bool_decide (length slice = 0%nat) then "null" else Join slice ", ".

End io.

(** ** The accessors of [CertDetails], and [ScanDomains] of package
    [scraper] *)

Module scan.
Import scraper.

(** The [opts] that both fetches hand to [cert.Verify]: the chain after the
    leaf as intermediates, the system roots or, without them, the empty
    pool. *)
Definition verify_options (SystemCertPool : x509.CertPool + string)
    (DNSName : string) (certs : list x509.Certificate) : x509.VerifyOptions :=
  {| x509.DNSName := DNSName;
     x509.Intermediates := drop 1 certs;
     x509.Roots :=
       match SystemCertPool with inl roots => roots | inr _ => [] end |}.

Definition GetLeafCert (cd : CertDetails) : option x509.Certificate :=
  if bool_decide (length (CertChain cd) = 0%nat) then None
  else CertChain cd !! 0%nat.

Definition GetIssuerCert (cd : CertDetails) : option x509.Certificate :=
  if bool_decide (length (CertChain cd) < 2)%nat then None
  else CertChain cd !! 1%nat.

Definition GetCertChain (cd : CertDetails) : list x509.Certificate :=
  CertChain cd.

Section ScanDomains.

(** [fetchFromDomain k i site]: the fetch of the [i]-th goroutine of the
    [k]-th call of [ScrapeTLS]. *)
Variable fetchFromDomain : nat -> nat -> string -> CertDetails * error.


(** The entries to merge after one call: those of the [MultiError], none
    for the nil error. *)
Definition errors_of (err : option MultiError) : gmap string error :=
  match err with
  | Some multiErr => Errors multiErr
  | None => ∅
  end.




End ScanDomains.

End scan.

(** ** [cmd/tls-scrape/config.go] *)

Module config.

Record Config := {
  FQDN : string;
  FilePath : string;
  CSVHeader : string;
  OutputDir : string;
  Concurrency : Z;
  PrettyJSON : bool;
  BundleOutput : bool;
  IPAddr : string;
  Subnet : string;
  Port : Z
}.

(** The target options that are set. *)
Definition given (config : Config) : list string :=
  filter (fun s => s <> "") [FQDN config; FilePath config; IPAddr config;
                             Subnet config].

Definition validateConfig (config : Config) : bool * string :=
  let optionCount := 0 in
  let optionCount :=
    if negb (bool_decide (FQDN config = "")) then optionCount + 1
    else optionCount in
  let optionCount :=
    if negb (bool_decide (FilePath config = "")) then optionCount + 1
    else optionCount in
  let optionCount :=
    if negb (bool_decide (IPAddr config = "")) then optionCount + 1
    else optionCount in
  let optionCount :=
    if negb (bool_decide (Subnet config = "")) then optionCount + 1
    else optionCount in
  if 1 <? optionCount
  then (false, "You can only specify one of: fqdn, filepath, ip, or subnet.")
  else if optionCount =? 0
  then (false, "You must specify one of: fqdn, filepath, ip, or subnet.")
  else (true, "").

End config.

(** ** Values used in examples *)

Module fixtures.
Import scraper.

Definition wildcard_cert : x509.Certificate :=
  {| x509.SerialNumber := 1; x509.Subject_CommonName := "*.example.com";
     x509.Issuer := "CN=Test CA"; x509.NotBefore := 0; x509.NotAfter := 100;
     x509.DNSNames := ["*.example.com"; "example.com"];
     x509.CRLDistributionPoints := []; x509.OCSPServer := [] |}.

(** The certificate of [TestIsHostnameInCert]. *)
Definition test_cert : x509.Certificate :=
  {| x509.SerialNumber := 0; x509.Subject_CommonName := "example.com";
     x509.Issuer := ""; x509.NotBefore := 0; x509.NotAfter := 0;
     x509.DNSNames := ["www.example.com"; "api.example.com"];
     x509.CRLDistributionPoints := []; x509.OCSPServer := [] |}.

(** The certificate of the mock connection in the tests of package
    [scraper]: valid from 2023-02-28 to 2024-02-09, as Unix seconds. *)
Definition mock_cert : x509.Certificate :=
  {| x509.SerialNumber := 1234567890; x509.Subject_CommonName := "";
     x509.Issuer := "CN=Amazon RSA 2048 M02,O=Amazon,C=US";
     x509.NotBefore := 1677542400; x509.NotAfter := 1707523199;
     x509.DNSNames := [];
     x509.CRLDistributionPoints := ["http://crl.r2m02.amazontrust.com/r2m02.crl"];
     x509.OCSPServer := ["http://ocsp.r2m02.amazontrust.com"] |}.

Definition mockDialer : Dialer := fun _ _ => inl (TLSConn [mock_cert]).

(** A network in which one host refuses the connection and every other
    one presents [mock_cert]. *)
Definition demo_dialer : Dialer := fun _ address =>
  if bool_decide (address = "unreachable.example:443")
  then inr "dial tcp: connection refused"
  else inl (TLSConn [mock_cert]).

(** [fetchFromDomain] on that network, on 2026-10-31, with no system trust
    store and a chain verification that finds the signer unknown. *)
Definition demo_fetch (i : nat) (site : string) : CertDetails * error :=
  fetchFromDomainWithDialer (inr "no system roots")
    (fun _ _ => Some (x509.UnknownAuthorityError
                        "x509: certificate signed by unknown authority"))
    1793404800 pretty CertDetails_zero site demo_dialer.

(** A certificate that names two responders, and an exchange in which
    the first one gives [first_answer] and the second one would report a
    good status; a response body is the list of its status code. *)
Definition two_responder_cert : x509.Certificate :=
  {| x509.SerialNumber := 1234567890; x509.Subject_CommonName := "";
     x509.Issuer := "CN=Amazon RSA 2048 M02,O=Amazon,C=US";
     x509.NotBefore := 1677542400; x509.NotAfter := 1707523199;
     x509.DNSNames := [];
     x509.CRLDistributionPoints := [];
     x509.OCSPServer := ["http://ocsp.first.example";
                         "http://ocsp.second.example"] |}.

Definition demo_checker : ocsp.OCSPChecker :=
  {| ocsp.Checker_Certificate := two_responder_cert;
     ocsp.Checker_Issuer := mock_cert |}.

Definition demo_CreateRequest (cert issuer : x509.Certificate)
  : list Z + string :=
  inl [48; 3; 10; 1; 0].

Definition demo_Post (first_answer : list Z + string) (post : ocsp.Post)
  : list Z + string :=
  if bool_decide (ocsp.url post = "http://ocsp.first.example")
  then first_answer
  else inl [ocsp.Good].

Definition demo_ParseResponse (bytes : list Z) (issuer : x509.Certificate)
  : ocsp.Response + string :=
  match bytes with
  | [status] => inl {| ocsp.Status := status; ocsp.Certificate := None |}
  | _ => inr "ocsp: malformed response"
  end.

Definition demo_request : ocsp.Post :=
  {| ocsp.url := "http://ocsp.first.example";
     ocsp.contentType := "application/ocsp-request";
     ocsp.body := [48; 3; 10; 1; 0] |}.

End fixtures.

(** * Theorems *)

Section CompareIPs_facts.
Import helper.

Lemma index_app_r {A} (pre s : list A) :
  forall i, index (pre ++ s) (length pre + i) = index s i.
Proof.
  intros i. unfold index. by rewrite lookup_app_r, Nat.add_comm, Nat.add_sub by lia.
Qed.

Lemma lex_compare_range a b :
  lex_compare a b = -1 \/ lex_compare a b = 0 \/ lex_compare a b = 1.
Proof.
  revert b. induction a as [|x a IH]; intros [|y b]; simpl; auto.
  destruct (x <? y); auto. destruct (y <? x); auto.
Qed.

(** The indexed loop, started after equally long prefixes, computes the
    lexicographic comparison of what remains. *)
Lemma CompareIPs_loop_lex a : forall b pre1 pre2,
  length pre1 = length pre2 -> length a = length b ->
  CompareIPs_loop (pre1 ++ a) (pre2 ++ b) (length pre1) (length a)
  = Returns (lex_compare a b).
Proof.
  induction a as [|x a IH]; intros [|y b] pre1 pre2 Hpre Hlen;
    simpl in Hlen; try discriminate; [done|].
  simpl.
  replace (length pre1) with (length pre1 + 0)%nat at 1 by lia.
  rewrite index_app_r. simpl.
  replace (length pre1) with (length pre2 + 0)%nat at 1 by lia.
  rewrite index_app_r. simpl.
  destruct (x <? y); [done|]. destruct (y <? x); [done|].
  specialize (IH b (pre1 ++ [x]) (pre2 ++ [y])).
  rewrite !length_app in IH. simpl in IH.
  rewrite <- !app_assoc in IH. simpl in IH.
  rewrite Nat.add_1_r in IH. apply IH; lia.
Qed.

Lemma CompareIPs_loop_same_length a b :
  length a = length b ->
  CompareIPs_loop a b 0 (length a) = Returns (lex_compare a b).
Proof. intros H. by apply (CompareIPs_loop_lex a b [] []). Qed.

Lemma To4_length ip ip4 : To4 ip = Some ip4 -> length ip4 = IPv4len.
Proof.
  unfold To4. destruct (length ip =? IPv4len)%nat eqn:E4.
  - intros [= <-]. by apply Nat.eqb_eq.
  - destruct (length ip =? IPv6len)%nat eqn:E6; simpl; [|done].
    apply Nat.eqb_eq in E6.
    destruct (_ && _ && _); [|done]. intros [= <-].
    rewrite length_drop, E6. reflexivity.
Qed.

Lemma CompareIPs_same_length (ip1 ip2 : IP) :
  length ip1 = length ip2 ->
  CompareIPs ip1 ip2 = Returns (lex_compare ip1 ip2).
Proof.
  intros Hlen. unfold CompareIPs.
  rewrite (proj2 (Nat.eqb_eq _ _) Hlen). simpl.
  by apply CompareIPs_loop_same_length.
Qed.

Lemma CompareIPs_normalized (ip1 ip2 a b : IP) :
  length ip1 <> length ip2 -> To4 ip1 = Some a -> To4 ip2 = Some b ->
  CompareIPs ip1 ip2 = Returns (lex_compare a b).
Proof.
  intros Hlen Ha Hb. unfold CompareIPs.
  rewrite (proj2 (Nat.eqb_neq _ _) Hlen), Ha, Hb. simpl.
  apply CompareIPs_loop_same_length.
  by rewrite (To4_length _ _ Ha), (To4_length _ _ Hb).
Qed.

Lemma CompareIPs_incomparable (ip1 ip2 : IP) :
  length ip1 <> length ip2 -> To4 ip1 = None \/ To4 ip2 = None ->
  CompareIPs ip1 ip2 = Returns 0.
Proof.
  intros Hlen Hnone. unfold CompareIPs.
  rewrite (proj2 (Nat.eqb_neq _ _) Hlen). simpl.
  destruct Hnone as [-> | ->]; [done|]. by destruct (To4 ip1).
Qed.

(** C8. [CompareIPs] never panics and always returns -1, 0 or 1.  On
    operands of one byte length the result is the byte-wise lexicographic
    comparison; on operands of differing lengths that both have a 4-byte
    form it is the comparison of those forms; on any other pair of differing
    lengths it is 0. *)
Theorem CompareIPs_total (ip1 ip2 : IP) :
  exists c : Z,
    CompareIPs ip1 ip2 = Returns c
    /\ (c = -1 \/ c = 0 \/ c = 1)
    /\ (length ip1 = length ip2 -> c = lex_compare ip1 ip2)
    /\ (length ip1 <> length ip2 ->
        forall a b, To4 ip1 = Some a -> To4 ip2 = Some b ->
                    c = lex_compare a b)
    /\ (length ip1 <> length ip2 ->
        To4 ip1 = None \/ To4 ip2 = None -> c = 0).
Proof.
  destruct (decide (length ip1 = length ip2)) as [Hlen|Hlen].
  - exists (lex_compare ip1 ip2).
    split_and!; auto using CompareIPs_same_length, lex_compare_range;
      intros; congruence.
  - destruct (To4 ip1) as [a|] eqn:Ha; [destruct (To4 ip2) as [b|] eqn:Hb|].
    + exists (lex_compare a b).
      split_and!; eauto using CompareIPs_normalized, lex_compare_range.
      * intros; congruence.
      * intros _ a' b' [= <-] [= <-]. done.
      * intros _ [?|?]; discriminate.
    + exists 0.
      split_and!; auto using CompareIPs_incomparable; intros; congruence.
    + exists 0.
      split_and!; auto using CompareIPs_incomparable; intros; congruence.
Qed.

End CompareIPs_facts.

Section NextIP_facts.
Import helper.

Lemma ip_val_snoc p b : ip_val (p ++ [b]) = ip_val p * 256 + b.
Proof. unfold ip_val. by rewrite fold_left_app. Qed.

Lemma wf_ip_snoc p b : wf_ip (p ++ [b]) <-> wf_ip p /\ is_byte b.
Proof.
  unfold wf_ip. rewrite Forall_app, Forall_singleton. tauto.
Qed.

Lemma ip_val_bound ip : wf_ip ip -> 0 <= ip_val ip < 256 ^ Z.of_nat (length ip).
Proof.
  induction ip as [|b p IH] using rev_ind; intros Hwf.
  - simpl. unfold ip_val. simpl. lia.
  - apply wf_ip_snoc in Hwf as [Hp Hb]. specialize (IH Hp). red in Hb.
    rewrite ip_val_snoc, length_app. simpl.
    rewrite Nat2Z.inj_add, Z.pow_add_r by lia.
    change (256 ^ Z.of_nat 1) with 256. nia.
Qed.

(** One run of the loop over a prefix of the slice: the prefix is
    incremented as a big-endian counter that wraps, the rest is untouched. *)
Lemma NextIP_loop_prefix pre : forall suf,
  wf_ip pre ->
  exists pre',
    NextIP_loop (pre ++ suf) (length pre) = pre' ++ suf
    /\ length pre' = length pre
    /\ wf_ip pre'
    /\ ip_val pre' = (ip_val pre + 1) mod 256 ^ Z.of_nat (length pre).
Proof.
  induction pre as [|b p IH] using rev_ind; intros suf Hwf.
  - exists []. split_and!; [done|done|constructor|done].
  - apply wf_ip_snoc in Hwf as [Hp Hb]. red in Hb.
    pose proof (ip_val_bound p Hp) as Hbound.
    rewrite length_app. simpl length. rewrite Nat.add_1_r.
    cbn [NextIP_loop]. rewrite <- app_assoc. simpl.
    rewrite list_lookup_middle by done. simpl.
    rewrite insert_app_r_alt, Nat.sub_diag by lia. simpl.
    assert (Hpow : 256 ^ Z.of_nat (S (length p)) = 256 ^ Z.of_nat (length p) * 256).
    { rewrite Nat2Z.inj_succ, Z.pow_succ_r by lia. lia. }
    destruct (0 <? (b + 1) mod 256) eqn:Hcarry.
    + (* no carry out of this byte *)
      apply Z.ltb_lt in Hcarry.
      assert (b < 255).
      { destruct (decide (b = 255)) as [->|]; [|lia].
        change ((255 + 1) mod 256) with 0 in Hcarry. lia. }
      rewrite Z.mod_small by lia.
      exists (p ++ [b + 1]). rewrite <- app_assoc. simpl.
      split_and!.
      * done.
      * rewrite length_app. simpl. lia.
      * apply wf_ip_snoc. split; [done|]. red. lia.
      * rewrite !ip_val_snoc, Hpow. rewrite Z.mod_small; nia.
    + (* the byte wrapped to zero: carry into the next one *)
      apply Z.ltb_ge in Hcarry.
      assert (b = 255).
      { destruct (decide (b = 255)); [done|].
        rewrite Z.mod_small in Hcarry by lia. lia. }
      subst b. change ((255 + 1) mod 256) with 0.
      destruct (IH (0 :: suf) Hp) as (p' & Hrun & Hlen & Hwf' & Hval).
      exists (p' ++ [0]). rewrite <- app_assoc. simpl.
      split_and!.
      * done.
      * rewrite !length_app. simpl. lia.
      * apply wf_ip_snoc. split; [done|]. red. lia.
      * rewrite !ip_val_snoc, Hpow, Hval.
        replace (ip_val p * 256 + 255 + 1) with ((ip_val p + 1) * 256) by lia.
        rewrite Z.mul_mod_distr_r by lia. lia.
Qed.

Lemma NextIP_spec ip :
  wf_ip ip ->
  length (NextIP ip) = length ip
  /\ wf_ip (NextIP ip)
  /\ ip_val (NextIP ip) = (ip_val ip + 1) mod 256 ^ Z.of_nat (length ip).
Proof.
  intros Hwf. destruct (NextIP_loop_prefix ip [] Hwf) as (p' & Hrun & ? & ? & ?).
  unfold NextIP. rewrite app_nil_r in Hrun. rewrite Hrun, app_nil_r. done.
Qed.

Lemma NextIP_loop_all_ones pre : forall suf,
  Forall (eq 255) pre ->
  NextIP_loop (pre ++ suf) (length pre) = replicate (length pre) 0 ++ suf.
Proof.
  induction pre as [|b p IH] using rev_ind; intros suf Hall; [done|].
  apply Forall_app in Hall as [Hp Hb]. apply Forall_singleton in Hb as <-.
  rewrite length_app. simpl length. rewrite Nat.add_1_r.
  cbn [NextIP_loop]. rewrite <- app_assoc. simpl.
  rewrite list_lookup_middle by done. simpl.
  rewrite insert_app_r_alt, Nat.sub_diag by lia. simpl.
  change ((255 + 1) mod 256) with 0.
  rewrite (IH (0 :: suf) Hp).
  change (0 :: replicate (length p) 0 ++ suf)
    with ((0 :: replicate (length p) 0) ++ suf).
  by rewrite replicate_cons_app, <- app_assoc.
Qed.

Lemma all_ones_wf ip : Forall (eq 255) ip -> wf_ip ip.
Proof. intros H. eapply Forall_impl; [exact H|]. intros b <-. red. lia. Qed.

Lemma lex_compare_all_ones a : forall b,
  wf_ip a -> Forall (eq 255) b -> lex_compare a b <= 0.
Proof.
  induction a as [|x a IH]; intros [|y b] Ha Hb; simpl; try lia.
  apply Forall_cons in Ha as [Hx Ha]. apply Forall_cons in Hb as [<- Hb].
  red in Hx. destruct (x <? 255) eqn:E1; [lia|].
  destruct (255 <? x) eqn:E2; [apply Z.ltb_lt in E2; lia|]. auto.
Qed.

Lemma To4_wf ip ip4 : wf_ip ip -> To4 ip = Some ip4 -> wf_ip ip4.
Proof.
  unfold To4. intros Hwf. destruct (length ip =? IPv4len)%nat.
  - by intros [= <-].
  - destruct (_ && _ && _ && _); [|done]. intros [= <-].
    by apply Forall_drop.
Qed.

Lemma To4_all_ones ip ip4 :
  Forall (eq 255) ip -> To4 ip = Some ip4 -> Forall (eq 255) ip4.
Proof.
  unfold To4. intros Hall. destruct (length ip =? IPv4len)%nat.
  - by intros [= <-].
  - destruct (_ && _ && _ && _); [|done]. intros [= <-].
    by apply Forall_drop.
Qed.

(** Against an all-ones end the loop guard [CompareIPs(ip, End) <= 0]
    holds for every address. *)
Lemma CompareIPs_all_ones_end ip End :
  wf_ip ip -> Forall (eq 255) End ->
  exists c, CompareIPs ip End = Returns c /\ c <= 0.
Proof.
  intros Hwf Hall.
  destruct (decide (length ip = length End)) as [Heq|Hne].
  - exists (lex_compare ip End).
    split; [by apply CompareIPs_same_length|by apply lex_compare_all_ones].
  - destruct (To4 ip) as [a|] eqn:E1;
      [|exists 0; split; [apply CompareIPs_incomparable; auto|lia]].
    destruct (To4 End) as [b|] eqn:E2;
      [|exists 0; split; [apply CompareIPs_incomparable; auto|lia]].
    exists (lex_compare a b). split; [by apply CompareIPs_normalized|].
    apply lex_compare_all_ones; eauto using To4_wf, To4_all_ones.
Qed.

Lemma GetIPsInRange_loop_all_ones End fuel : forall ip ips,
  wf_ip ip -> Forall (eq 255) End ->
  GetIPsInRange_loop fuel ip End ips = None.
Proof.
  induction fuel as [|fuel IH]; intros ip ips Hwf Hall; [done|].
  simpl. destruct (CompareIPs_all_ones_end ip End Hwf Hall) as (c & -> & Hc).
  apply Z.leb_le in Hc. rewrite Hc.
  apply IH; [|done]. by apply NextIP_spec.
Qed.

(** C10. [NextIP] adds one to the address read as a big-endian integer,
    modulo [256 ^ len]: the carry out of the highest-order byte is dropped,
    so the all-ones address is followed by the all-zero address of the same
    length.  In an enumeration whose stored end is all-ones the loop guard
    therefore still holds at the wrapped counter, and no number of
    iterations reaches the loop's exit. *)
Theorem NextIP_wraps_at_all_ones (ip : IP) :
  wf_ip ip ->
  length (NextIP ip) = length ip
  /\ ip_val (NextIP ip) = (ip_val ip + 1) mod 256 ^ Z.of_nat (length ip)
  /\ (Forall (eq 255) ip ->
      NextIP ip = replicate (length ip) 0
      /\ (exists c, CompareIPs (NextIP ip) ip = Returns c /\ c <= 0)
      /\ (forall start fuel, wf_ip start ->
            GetIPsInRange fuel {| Start := start; End := ip |} = None)).
Proof.
  intros Hwf. destruct (NextIP_spec ip Hwf) as (Hlen & Hwf' & Hval).
  split_and!; [done|done|]. intros Hall. split_and!.
  - unfold NextIP. pose proof (NextIP_loop_all_ones ip [] Hall) as H.
    by rewrite !app_nil_r in H.
  - by apply CompareIPs_all_ones_end.
  - intros start fuel Hstart. unfold GetIPsInRange. simpl.
    by apply GetIPsInRange_loop_all_ones.
Qed.

Lemma NextIP_wraps_at_all_ones_witness :
  NextIP [255; 255; 255; 255] = [0; 0; 0; 0]
  /\ GetIPsInRange 300
       {| Start := [255; 255; 255; 254]; End := [255; 255; 255; 255] |} = None.
Proof.
  assert (Hwf : wf_ip [255; 255; 255; 255]) by (repeat constructor; lia).
  destruct (NextIP_wraps_at_all_ones [255; 255; 255; 255] Hwf) as (_ & _ & H).
  destruct H as (Hzero & _ & Hloop); [repeat constructor|].
  split; [exact Hzero|]. apply Hloop. repeat constructor; lia.
Defined.

(** C3, at the range [255.255.255.255 .. 255.255.255.255] that
    [ParseIPOrSubnet] returns for the literal 255.255.255.255:
    [GetIPsInRange] has not returned after any number of iterations. *)
Theorem GetIPsInRange_broadcast_never_returns (fuel : nat) :
  GetIPsInRange fuel
    {| Start := [255; 255; 255; 255]; End := [255; 255; 255; 255] |} = None.
Proof.
  unfold GetIPsInRange. simpl.
  apply GetIPsInRange_loop_all_ones; repeat constructor; lia.
Qed.

End NextIP_facts.

Section GetIPsInRange_facts.
Import helper.

Lemma ip_val_from l : forall acc,
  fold_left (fun acc b => acc * 256 + b) l acc
  = acc * 256 ^ Z.of_nat (length l) + ip_val l.
Proof.
  unfold ip_val. induction l as [|b l IH]; intros acc.
  - simpl. lia.
  - cbn [fold_left length]. rewrite IH, (IH (0 * 256 + b)).
    rewrite Nat2Z.inj_succ, Z.pow_succ_r by lia. lia.
Qed.

Lemma ip_val_cons x l : ip_val (x :: l) = x * 256 ^ Z.of_nat (length l) + ip_val l.
Proof. unfold ip_val at 1. cbn [fold_left]. rewrite ip_val_from. lia. Qed.

(** On well-formed addresses of one length the byte-wise order is the order
    of the big-endian values. *)
Lemma lex_compare_val a : forall b,
  wf_ip a -> wf_ip b -> length a = length b ->
  lex_compare a b = Z.sgn (ip_val a - ip_val b).
Proof.
  induction a as [|x a IH]; intros [|y b] Ha Hb Hlen; try discriminate; [done|].
  apply Forall_cons in Ha as [Hx Ha]. apply Forall_cons in Hb as [Hy Hb].
  simpl in Hlen. injection Hlen as Hlen.
  pose proof (ip_val_bound a Ha) as Ba. pose proof (ip_val_bound b Hb) as Bb.
  rewrite !ip_val_cons, <- Hlen. cbn [lex_compare].
  set (P := 256 ^ Z.of_nat (length a)) in *. rewrite <- Hlen in Bb. fold P in Bb.
  destruct (Z.ltb_spec x y); [rewrite Z.sgn_neg; nia|].
  destruct (Z.ltb_spec y x); [rewrite Z.sgn_pos; nia|].
  assert (x = y) as -> by lia.
  rewrite (IH b) by done. f_equal. lia.
Qed.

Lemma all_ones_of_val ip :
  wf_ip ip -> ip_val ip = 256 ^ Z.of_nat (length ip) - 1 -> Forall (eq 255) ip.
Proof.
  induction ip as [|b p IH] using rev_ind; intros Hwf Hval; [constructor|].
  apply wf_ip_snoc in Hwf as [Hp Hb]. red in Hb.
  pose proof (ip_val_bound p Hp) as Bp.
  rewrite ip_val_snoc, length_app in Hval. simpl length in Hval.
  rewrite Nat2Z.inj_add, Z.pow_add_r in Hval by lia.
  change (256 ^ Z.of_nat 1) with 256 in Hval.
  apply Forall_app. split.
  - apply IH; [done|]. nia.
  - apply Forall_singleton. nia.
Qed.

Lemma iter_shift {A} (f : A -> A) (x : A) (n : nat) :
  map (fun k => Nat.iter k f x) (seq 0 (S n))
  = x :: map (fun k => Nat.iter k f (f x)) (seq 0 n).
Proof.
  cbn [seq map Nat.iter]. f_equal. rewrite <- seq_shift, map_map.
  apply map_ext. intros k. by rewrite Nat.iter_succ_r.
Qed.

(** The loop, started [n] addresses before the first one past [End], runs
    [n] appending iterations and leaves at the next test. *)
Lemma GetIPsInRange_loop_run End n : forall fuel ip ips,
  wf_ip End -> wf_ip ip -> length ip = length End ->
  ip_val End + 1 < 256 ^ Z.of_nat (length End) ->
  ip_val ip + Z.of_nat n = ip_val End + 1 ->
  GetIPsInRange_loop fuel ip End ips
  = if decide (n < fuel)%nat
    then Some (Returns (ips ++ map (fun k => Nat.iter k NextIP ip) (seq 0 n)))
    else None.
Proof.
  induction n as [|n IH]; intros fuel ip ips HwE Hwf Hlen Hmax Hval.
  - destruct fuel as [|fuel]; [done|]. simpl.
    rewrite CompareIPs_same_length, lex_compare_val by done.
    rewrite Z.sgn_pos by lia. simpl. by rewrite app_nil_r.
  - destruct fuel as [|fuel]; [done|]. cbn [GetIPsInRange_loop].
    rewrite CompareIPs_same_length, lex_compare_val by done.
    destruct (Z.leb_spec (Z.sgn (ip_val ip - ip_val End)) 0) as [_|Hpos];
      [|pose proof (Z.sgn_nonpos (ip_val ip - ip_val End)); lia].
    destruct (NextIP_spec ip Hwf) as (Hlen' & Hwf' & Hval').
    pose proof (ip_val_bound ip Hwf) as Bip.
    rewrite Hlen in Hval', Bip. rewrite Z.mod_small in Hval' by lia.
    rewrite (IH fuel (NextIP ip) (ips ++ [ip])) by (try done; lia).
    rewrite iter_shift, <- app_assoc. simpl.
    destruct (decide (n < fuel)%nat), (decide (S n < S fuel)%nat); done || lia.
Qed.

Lemma lex_compare_eq a : forall b,
  length a = length b -> lex_compare a b = 0 -> a = b.
Proof.
  induction a as [|x a IH]; intros [|y b] Hlen; try discriminate; [done|].
  simpl. destruct (Z.ltb_spec x y); [done|]. destruct (Z.ltb_spec y x); [done|].
  intros Hcmp. f_equal; [lia|]. apply IH; [by injection Hlen|done].
Qed.

Lemma ip_val_inj a b :
  wf_ip a -> wf_ip b -> length a = length b -> ip_val a = ip_val b -> a = b.
Proof.
  intros Ha Hb Hlen Hval. apply lex_compare_eq; [done|].
  rewrite lex_compare_val, Hval, Z.sub_diag by done. done.
Qed.

(** As long as the counter does not wrap, [k] increments add [k]. *)
Lemma NextIP_iter_val ip k :
  wf_ip ip ->
  ip_val ip + Z.of_nat k < 256 ^ Z.of_nat (length ip) ->
  wf_ip (Nat.iter k NextIP ip)
  /\ length (Nat.iter k NextIP ip) = length ip
  /\ ip_val (Nat.iter k NextIP ip) = ip_val ip + Z.of_nat k.
Proof.
  intros Hwf. induction k as [|k IH]; intros Hmax.
  - simpl. split_and!; [done|done|lia].
  - destruct IH as (Hw & Hl & Hv); [lia|]. rewrite !Nat.iter_succ.
    destruct (NextIP_spec _ Hw) as (Hl' & Hw' & Hv').
    pose proof (ip_val_bound ip Hwf).
    split_and!; [done|congruence|].
    rewrite Hv', Hl, Hv, Z.mod_small; lia.
Qed.

(** X1. Enumeration of a range whose end is not the all-ones address: the loop
    returns, after exactly [end - start + 1] appending iterations, the
    addresses [start, start + 1, ..., end], each the [NextIP] of the one
    before it. *)
Theorem GetIPsInRange_enumerates (r : IPRange) :
  wf_ip (Start r) -> wf_ip (End r) ->
  length (Start r) = length (End r) ->
  lex_compare (Start r) (End r) <= 0 ->
  ~ Forall (eq 255) (End r) ->
  let n := Z.to_nat (ip_val (End r) - ip_val (Start r) + 1) in
  let ips := map (fun k => Nat.iter k NextIP (Start r)) (seq 0 n) in
  (forall fuel, (n < fuel)%nat -> GetIPsInRange fuel r = Some (Returns ips))
  /\ (forall fuel, (fuel <= n)%nat -> GetIPsInRange fuel r = None)
  /\ (0 < n)%nat
  /\ ips !! 0%nat = Some (Start r)
  /\ ips !! (n - 1)%nat = Some (End r)
  /\ (forall k ip, ips !! k = Some ip ->
        wf_ip ip /\ length ip = length (Start r)
        /\ ip_val ip = ip_val (Start r) + Z.of_nat k)
  /\ (forall k ip, ips !! k = Some ip -> (S k < n)%nat ->
        ips !! S k = Some (NextIP ip)).
Proof.
  destruct r as [start End]. simpl. intros Hs He Hlen Hle Hnot.
  rewrite lex_compare_val in Hle by done.
  assert (Hord : ip_val start <= ip_val End).
  { destruct (Z.le_gt_cases (ip_val start) (ip_val End)); [done|].
    rewrite Z.sgn_pos in Hle; lia. }
  pose proof (ip_val_bound End He) as BE.
  assert (Hmax : ip_val End + 1 < 256 ^ Z.of_nat (length End)).
  { destruct (decide (ip_val End = 256 ^ Z.of_nat (length End) - 1)) as [E|];
      [|lia]. destruct Hnot. by apply all_ones_of_val. }
  set (n := Z.to_nat (ip_val End - ip_val start + 1)).
  assert (Hn : Z.of_nat n = ip_val End - ip_val start + 1) by (unfold n; lia).
  assert (Hlook : forall k, (k < n)%nat ->
            map (fun k => Nat.iter k NextIP start) (seq 0 n) !! k
            = Some (Nat.iter k NextIP start)).
  { intros k Hk. by rewrite list_lookup_fmap, lookup_seq_lt. }
  assert (Hiter : forall k, (k < n)%nat ->
            wf_ip (Nat.iter k NextIP start)
            /\ length (Nat.iter k NextIP start) = length start
            /\ ip_val (Nat.iter k NextIP start) = ip_val start + Z.of_nat k).
  { intros k Hk. apply NextIP_iter_val; [done|]. rewrite Hlen. lia. }
  assert (Hrun : forall fuel,
            GetIPsInRange fuel {| Start := start; End := End |}
            = if decide (n < fuel)%nat
              then Some (Returns (map (fun k => Nat.iter k NextIP start) (seq 0 n)))
              else None).
  { intros fuel. unfold GetIPsInRange. simpl.
    rewrite (GetIPsInRange_loop_run End n) by (try done; lia). done. }
  split_and!.
  - intros fuel Hf. rewrite Hrun. by destruct (decide _).
  - intros fuel Hf. rewrite Hrun. destruct (decide _); [lia|done].
  - lia.
  - rewrite Hlook by lia. done.
  - rewrite Hlook by lia. f_equal.
    destruct (Hiter (n - 1)%nat) as (Hw & Hl & Hv); [lia|].
    apply ip_val_inj; [done|done|congruence|lia].
  - intros k ip Hk.
    assert (k < n)%nat as Hkn.
    { apply lookup_lt_Some in Hk. by rewrite length_map, length_seq in Hk. }
    rewrite Hlook in Hk by done. injection Hk as <-. by apply Hiter.
  - intros k ip Hk Hkn. rewrite Hlook in Hk by lia. injection Hk as <-.
    by rewrite Hlook.
Qed.

Lemma GetIPsInRange_enumerates_witness :
  GetIPsInRange 4 {| Start := [192; 168; 1; 1]; End := [192; 168; 1; 3] |}
  = Some (Returns [[192; 168; 1; 1]; [192; 168; 1; 2]; [192; 168; 1; 3]]).
Proof.
  assert (Hw1 : wf_ip [192; 168; 1; 1]) by (repeat constructor; lia).
  assert (Hw2 : wf_ip [192; 168; 1; 3]) by (repeat constructor; lia).
  assert (Hle : lex_compare [192; 168; 1; 1] [192; 168; 1; 3] <= 0)
    by (vm_compute; discriminate).
  assert (Hnot : ~ Forall (eq 255) [192; 168; 1; 3])
    by (intros H; inversion H; discriminate).
  destruct (GetIPsInRange_enumerates
              {| Start := [192; 168; 1; 1]; End := [192; 168; 1; 3] |}
              Hw1 Hw2 eq_refl Hle Hnot) as (Hrun & _).
  apply (Hrun 4%nat). vm_compute. lia.
Defined.

(** The test table of [TestNextIP], [TestCompareIPs] and [TestGetIPsInRange],
    and the /24 of the specification. *)
Example NextIP_overflow : NextIP [192; 168; 1; 255] = [192; 168; 2; 0].
Proof. reflexivity. Qed.

Example CompareIPs_v4_v6 :
  CompareIPs [192; 168; 1; 1]
             [32; 1; 13; 184; 0; 0; 0; 0; 0; 0; 0; 0; 0; 0; 0; 1] = Returns 0.
Proof. reflexivity. Qed.

Example CompareIPs_v4_mapped :
  CompareIPs [192; 168; 1; 1]
             [0; 0; 0; 0; 0; 0; 0; 0; 0; 0; 255; 255; 192; 168; 1; 2]
  = Returns (-1).
Proof. reflexivity. Qed.

Example GetIPsInRange_slash24 :
  exists ips,
    GetIPsInRange 257 {| Start := [192; 168; 1; 0]; End := [192; 168; 1; 255] |}
    = Some (Returns ips) /\ length ips = 256%nat.
Proof. eexists. split; vm_compute; reflexivity. Qed.

End GetIPsInRange_facts.

Section parseSubnet_facts.
Import helper.

Lemma CIDRMask_loop_length l : forall n, length (CIDRMask_loop l n) = l.
Proof.
  induction l as [|l IH]; intros n; [done|].
  simpl. destruct (8 <=? n); simpl; by rewrite IH.
Qed.

Lemma CIDRMask_in_range (ones bits : Z) :
  bits = 32 \/ bits = 128 -> 0 <= ones <= bits ->
  CIDRMask ones bits = Some (CIDRMask_loop (Z.to_nat (bits / 8)) ones).
Proof.
  intros Hbits Hones. unfold CIDRMask.
  change (8 * Z.of_nat IPv4len) with 32. change (8 * Z.of_nat IPv6len) with 128.
  destruct (Z.eqb_spec bits 32), (Z.eqb_spec bits 128); cbn [negb andb];
    try lia;
    destruct (Z.ltb_spec ones 0), (Z.ltb_spec bits ones); cbn [orb]; done || lia.
Qed.

Lemma Mask_same_length ip mask :
  length ip = length mask -> Mask ip mask = Some (zip_with Z.land ip mask).
Proof.
  intros Hlen. unfold Mask.
  assert (H1 : (length mask =? IPv6len)%nat && (length ip =? IPv4len)%nat = false).
  { rewrite <- Hlen. unfold IPv4len, IPv6len.
    destruct (Nat.eqb_spec (length ip) 16), (Nat.eqb_spec (length ip) 4);
      simpl; done || lia. }
  rewrite H1. cbn [andb].
  assert (H2 : (length mask =? IPv4len)%nat && (length ip =? IPv6len)%nat = false).
  { rewrite <- Hlen. unfold IPv4len, IPv6len.
    destruct (Nat.eqb_spec (length ip) 16), (Nat.eqb_spec (length ip) 4);
      simpl; done || lia. }
  rewrite H2. cbn [andb]. by rewrite Hlen, Nat.eqb_refl.
Qed.

Lemma To4_of_As16_v4 b : length b = 4%nat -> To4 (As16 (Addr4 b)) = Some b.
Proof.
  intros Hlen. do 5 (destruct b as [|? b]; try discriminate). reflexivity.
Qed.

(** Over slices of one length the host-bit loop never leaves the slice and
    ors the complement of each mask byte into its byte. *)
Lemma parseSubnet_loop_zip e : forall m pre pm,
  length pre = length pm -> length e = length m ->
  parseSubnet_loop (pre ++ e) (pm ++ m) (length pre) (length m)
  = Returns (pre ++ zip_with (fun x y => Z.lor x (byte_not y)) e m).
Proof.
  induction e as [|x e IH]; intros [|y m] pre pm Hpre Hlen;
    try discriminate; [done|].
  cbn [length parseSubnet_loop zip_with].
  unfold index. rewrite Hpre at 1. rewrite !list_lookup_middle by done.
  cbn [mbind outcome_bind].
  rewrite insert_app_r_alt, Nat.sub_diag by lia. cbn [list_insert].
  specialize (IH m (pre ++ [Z.lor x (byte_not y)]) (pm ++ [y])).
  rewrite !length_app, <- !app_assoc in IH. simpl in IH.
  rewrite Nat.add_1_r in IH. apply IH; [lia|by injection Hlen].
Qed.

(** X2. For an IPv4 CIDR, and for an IPv6 CIDR whose address is not
    IPv4-mapped, [parseSubnet] returns the range whose start is the address
    ANDed with the mask and whose end is that start with every bit outside
    the mask set. *)
Theorem parseSubnet_plain (a : Addr) (n : Z) :
  plain_addr a -> 0 <= n <= BitLen a ->
  exists mask,
    CIDRMask n (BitLen a) = Some mask
    /\ length mask = length (addr_bytes a)
    /\ let start := zip_with Z.land (addr_bytes a) mask in
       parseSubnet (Reading a n)
       = Returns (inl {| Start := start;
                         End := zip_with (fun x y => Z.lor x (byte_not y))
                                         start mask |}).
Proof.
  intros Hplain Hn.
  assert (Hmask : exists mask, CIDRMask n (BitLen a) = Some mask
                    /\ length mask = length (addr_bytes a)).
  { exists (CIDRMask_loop (Z.to_nat (BitLen a / 8)) n). split.
    - apply CIDRMask_in_range; [|done]. destruct a; auto.
    - rewrite CIDRMask_loop_length.
      destruct a as [b|b]; cbn [plain_addr BitLen addr_bytes] in Hplain |- *.
      + by rewrite Hplain.
      + by destruct Hplain as [-> _]. }
  destruct Hmask as (mask & Hmask & Hlen). exists mask. split_and!; [done..|].
  unfold parseSubnet, ParseCIDR. rewrite Hmask.
  destruct (n <? 0) eqn:E1; [apply Z.ltb_lt in E1; lia|].
  destruct (BitLen a <? n) eqn:E2; [apply Z.ltb_lt in E2; lia|].
  cbn [orb IPNet_Mask].
  assert (Hip : match To4 (As16 a) with Some ip4 => ip4 | None => As16 a end
                = addr_bytes a).
  { destruct a as [b|b]; simpl in Hplain.
    - by rewrite To4_of_As16_v4.
    - destruct Hplain as [_ Hnone]. cbn [As16 addr_bytes]. by rewrite Hnone. }
  rewrite Hip, Mask_same_length by done. unfold default. cbn [from_option id].
  assert (Hloop :
    parseSubnet_loop (zip_with Z.land (addr_bytes a) mask) mask 0 (length mask)
    = Returns (zip_with (fun x y => Z.lor x (byte_not y))
                        (zip_with Z.land (addr_bytes a) mask) mask)).
  { assert (length (zip_with Z.land (addr_bytes a) mask) = length mask)
      by (rewrite length_zip_with; lia).
    by apply (parseSubnet_loop_zip _ mask [] []). }
  by rewrite Hloop.
Qed.

Lemma parseSubnet_plain_witness :
  parseSubnet (Reading (Addr4 [192; 168; 1; 0]) 24)
  = Returns (inl {| Start := [192; 168; 1; 0]; End := [192; 168; 1; 255] |}).
Proof.
  destruct (parseSubnet_plain (Addr4 [192; 168; 1; 0]) 24)
    as (mask & Hmask & _ & Hrun).
  - reflexivity.
  - simpl. lia.
  - injection Hmask as <-. exact Hrun.
Defined.

(** C5, at the well-formed CIDR [::ffff:192.168.1.0/120]: the address is
    converted to its 4-byte form, the 16-byte mask is not, and the loop over
    the mask indexes past the 4-byte [end]. *)
Theorem parseSubnet_mapped_panics :
  parseSubnet
    (Reading (Addr6 [0; 0; 0; 0; 0; 0; 0; 0; 0; 0; 255; 255; 192; 168; 1; 0])
             120)
  = Panics "index out of range".
Proof. reflexivity. Qed.

Example parseSubnet_mapped_64 :
  parseSubnet
    (Reading (Addr6 [0; 0; 0; 0; 0; 0; 0; 0; 0; 0; 255; 255; 192; 168; 1; 0])
             64)
  = Panics "index out of range".
Proof. reflexivity. Qed.

End parseSubnet_facts.

Section ChunkSlice_facts.
Import scraper.
Context {A : Type}.

Lemma subslice_length (slice : list A) lo hi :
  0 <= lo <= hi -> hi <= Z.of_nat (length slice) ->
  Z.of_nat (length (subslice slice lo hi)) = hi - lo.
Proof.
  intros Hlo Hhi. unfold subslice. rewrite length_take, length_drop. lia.
Qed.

Lemma ChunkSlice_loop_done (slice : list A) p i chunks :
  Z.of_nat (length slice) <= i -> ChunkSlice_loop slice p i chunks = chunks.
Proof.
  intros Hi. rewrite ChunkSlice_loop_equation_1.
  destruct (decide (i < Z.of_nat (length slice))); [lia|done].
Qed.

(** The batches appended from index [i] on spell out the rest of the
    slice. *)
Lemma ChunkSlice_loop_concat (slice : list A) p i chunks :
  0 <= i ->
  concat (ChunkSlice_loop slice p i chunks)
  = concat chunks ++ drop (Z.to_nat i) slice.
Proof.
  funelim (ChunkSlice_loop slice p i chunks); intros Hi.
  - rewrite H by lia. rewrite concat_app, <- app_assoc. f_equal.
    simpl. rewrite app_nil_r. unfold subslice.
    destruct (decide (Z.of_nat (length slice) < i + Z.pos chunkSize)).
    + rewrite (drop_ge slice (Z.to_nat (i + Z.pos chunkSize))) by lia.
      rewrite app_nil_r. apply take_ge. rewrite length_drop. lia.
    + replace (Z.to_nat (i + Z.pos chunkSize))
        with (Z.to_nat i + Z.to_nat (i + Z.pos chunkSize - i))%nat by lia.
      rewrite <- drop_drop. apply take_drop.
  - rewrite drop_ge by lia. by rewrite app_nil_r.
Qed.

(** Every batch but the last is full, and no batch is empty or too long. *)
Lemma ChunkSlice_loop_shape (slice : list A) p i chunks :
  0 <= i ->
  Forall (fun c => Z.of_nat (length c) = Z.pos p) chunks ->
  forall k chunk,
    ChunkSlice_loop slice p i chunks !! k = Some chunk ->
    1 <= Z.of_nat (length chunk) <= Z.pos p
    /\ ((S k < length (ChunkSlice_loop slice p i chunks))%nat ->
        Z.of_nat (length chunk) = Z.pos p).
Proof.
  funelim (ChunkSlice_loop slice p i chunks); intros Hi Hfull k chunk Hk.
  - destruct (decide (Z.of_nat (length slice) < i + Z.pos chunkSize)) as [Hlast|Hmore].
    + rewrite ChunkSlice_loop_done in Hk |- * by lia.
      apply lookup_app_Some in Hk as [Hk|[Hge Hk]].
      * rewrite (Forall_lookup_1 _ _ _ _ Hfull Hk). lia.
      * apply list_lookup_singleton_Some in Hk as [Hk0 <-].
        rewrite length_app. simpl.
        rewrite subslice_length by lia. lia.
    + apply H; [lia| |done].
      apply Forall_app. split; [done|]. apply Forall_singleton.
      rewrite subslice_length; lia.
  - rewrite (Forall_lookup_1 _ _ _ _ Hfull Hk). lia.
Qed.

(** C2. For a positive chunk size the batches of [ChunkSlice], concatenated
    in order, are the list; every batch has between 1 and [C] elements and
    every batch before the last has exactly [C]; a non-empty list has a last
    batch.  For a chunk size of 0 or less there are no batches. *)
Theorem ChunkSlice_partition (L : list A) (C : Z) :
  (0 < C ->
     concat (ChunkSlice L C) = L
     /\ (forall k chunk, ChunkSlice L C !! k = Some chunk ->
           1 <= Z.of_nat (length chunk) <= C
           /\ ((S k < length (ChunkSlice L C))%nat ->
               Z.of_nat (length chunk) = C))
     /\ (L <> [] ->
         exists front last,
           ChunkSlice L C = front ++ [last]
           /\ 1 <= Z.of_nat (length last) <= C))
  /\ (C <= 0 -> ChunkSlice L C = []).
Proof.
  split.
  - intros HC. destruct C as [|p|p]; try lia. cbn [ChunkSlice].
    assert (Hconcat : concat (ChunkSlice_loop L p 0 []) = L).
    { rewrite ChunkSlice_loop_concat by lia. done. }
    assert (Hshape := ChunkSlice_loop_shape L p 0 [] ltac:(lia) ltac:(constructor)).
    split_and!; [done|done|].
    intros Hne.
    destruct (ChunkSlice_loop L p 0 []) as [|c cs] eqn:E using rev_ind.
    { simpl in Hconcat. congruence. }
    exists cs, c. split; [done|].
    apply (Hshape (length cs)). by rewrite list_lookup_middle.
  - intros HC. destruct C; try lia; done.
Qed.

Example ChunkSlice_test_larger :
  ChunkSlice ["a"; "b"; "c"; "d"; "e"] 2 = [["a"; "b"]; ["c"; "d"]; ["e"]].
Proof. reflexivity. Qed.

Example ChunkSlice_test_zero : ChunkSlice ["a"; "b"; "c"] 0 = [].
Proof. reflexivity. Qed.

End ChunkSlice_facts.

Section String_facts.

Lemma string_app_cons c (s t : string) : String c s +:+ t = String c (s +:+ t).
Proof. reflexivity. Qed.

Lemma string_app_assoc (a b c : string) : (a +:+ b) +:+ c = a +:+ (b +:+ c).
Proof.
  induction a as [|x a IH]; [done|]. by rewrite !string_app_cons, IH.
Qed.

Lemma HasPrefix_spec (s p : string) :
  HasPrefix s p = true <-> exists post, s = p +:+ post.
Proof.
  revert s. induction p as [|c p IH]; intros [|d s]; simpl.
  - split; [|done]. intros _. by exists "".
  - split; [|done]. intros _. by exists (String d s).
  - split; [done|]. intros [post Hpost]. discriminate.
  - rewrite andb_true_iff, bool_decide_eq_true, IH. split.
    + intros [-> [post ->]]. by exists post.
    + intros [post Hpost]. rewrite string_app_cons in Hpost.
      injection Hpost as -> ->. eauto.
Qed.

(** [Contains] finds exactly the substrings. *)
Lemma Contains_spec (s sub : string) :
  Contains s sub = true <-> exists pre post, s = pre +:+ sub +:+ post.
Proof.
  induction s as [|c s IH].
  - cbn [Contains]. rewrite orb_false_r, HasPrefix_spec. split.
    + intros [post ->]. by exists "", post.
    + intros ([|] & post & Hs); [by exists post|discriminate].
  - cbn [Contains]. rewrite orb_true_iff, HasPrefix_spec, IH. split.
    + intros [[post ->]|(pre & post & ->)].
      * by exists "", post.
      * by exists (String c pre), post.
    + intros ([|d pre] & post & Hs).
      * left. by exists post.
      * right. rewrite string_app_cons in Hs. injection Hs as -> ->. eauto.
Qed.

Lemma Contains_app_l (s sub pre : string) :
  Contains s sub = true -> Contains (pre +:+ s) sub = true.
Proof.
  rewrite !Contains_spec. intros (p & q & ->).
  exists (pre +:+ p), q. by rewrite string_app_assoc.
Qed.

Lemma Contains_app_r (s sub post : string) :
  Contains s sub = true -> Contains (s +:+ post) sub = true.
Proof.
  rewrite !Contains_spec. intros (p & q & ->).
  exists p, (q +:+ post). by rewrite !string_app_assoc.
Qed.

Lemma Contains_refl (s : string) : Contains s s = true.
Proof.
  apply Contains_spec. exists "", "". clear.
  induction s as [|c s IH]; [done|].
  change ("" +:+ String c s +:+ "") with (String c ("" +:+ s +:+ "")).
  by rewrite <- IH.
Qed.

(** The table of [TestIsConnectionError], and the trailing dot of a name
    from the reverse lookup. *)
Example IsConnectionError_table :
  scraper.IsConnectionError None = false
  /\ scraper.IsConnectionError (Some "some other error") = false
  /\ scraper.IsConnectionError (Some "dial tcp: connection refused") = true
  /\ scraper.IsConnectionError (Some "connect: network is unreachable") = true.
Proof. split_and!; reflexivity. Qed.

Example TrimSuffix_root_label :
  TrimSuffix "host.example.com." "." = "host.example.com"
  /\ TrimSuffix "host.example.com" "." = "host.example.com".
Proof. split; reflexivity. Qed.

End String_facts.

Section isHostnameInCert_facts.
Import scraper.

(** C6. [isHostnameInCert] is true exactly when the hostname equals the
    subject common name or one of the DNS names of the certificate, as
    strings; on every other hostname it is false. *)
Theorem isHostnameInCert_exact (cert : x509.Certificate) (hostname : string) :
  (isHostnameInCert cert hostname = true
   <-> x509.Subject_CommonName cert = hostname
       \/ hostname ∈ x509.DNSNames cert)
  /\ (isHostnameInCert cert hostname = false
      <-> x509.Subject_CommonName cert <> hostname
          /\ hostname ∉ x509.DNSNames cert).
Proof.
  assert (Hsan : forall sans : list string,
            existsb (fun san => bool_decide (san = hostname)) sans = true
            <-> hostname ∈ sans).
  { intros sans. rewrite existsb_exists. split.
    - intros (san & Hin & Heq). apply bool_decide_eq_true in Heq as <-.
      by apply list_elem_of_In.
    - intros Hin. exists hostname. split; [by apply list_elem_of_In|].
      by apply bool_decide_eq_true. }
  assert (Htrue : isHostnameInCert cert hostname = true
                  <-> x509.Subject_CommonName cert = hostname
                      \/ hostname ∈ x509.DNSNames cert).
  { unfold isHostnameInCert. case_bool_decide as Hcn.
    - split; auto.
    - rewrite Hsan. split; [auto|]. intros [?|?]; done. }
  split; [done|].
  rewrite <- not_true_iff_false, Htrue. tauto.
Qed.

(** The table of [TestIsHostnameInCert]. *)
Example isHostnameInCert_table :
  isHostnameInCert fixtures.test_cert "example.com" = true
  /\ isHostnameInCert fixtures.test_cert "www.example.com" = true
  /\ isHostnameInCert fixtures.test_cert "other.example.com" = false.
Proof. split_and!; reflexivity. Qed.

Example isHostnameInCert_no_wildcard :
  isHostnameInCert fixtures.wildcard_cert "www.example.com" = false.
Proof. reflexivity. Qed.

Example isHostnameInCert_no_suffix :
  isHostnameInCert fixtures.wildcard_cert "a.example.com" = false
  /\ isHostnameInCert fixtures.wildcard_cert "xample.com" = false.
Proof. split; reflexivity. Qed.

Example isHostnameInCert_case_sensitive :
  isHostnameInCert fixtures.wildcard_cert "Example.com" = false
  /\ isHostnameInCert fixtures.wildcard_cert "example.com" = true.
Proof. split; reflexivity. Qed.

End isHostnameInCert_facts.

Section MultiError_facts.
Import scraper.

Lemma join_app (l1 l2 : list string) : join (l1 ++ l2) = join l1 +:+ join l2.
Proof.
  induction l1 as [|x l1 IH]; [done|].
  cbn [app join foldr]. fold (join (l1 ++ l2)). fold (join l1).
  by rewrite IH, string_app_assoc.
Qed.

Lemma string_app_nil_r (s : string) : s +:+ "" = s.
Proof. induction s as [|c s IH]; [done|]. by rewrite string_app_cons, IH. Qed.

(** The loop appends one [entry_line] per visited entry, in the order of
    the visit, when no visited error is nil. *)
Lemma Error_loop_lines (entries : list (string * string)) : forall errMsg,
  Error_loop (map (fun '(d, msg) => (d, Some msg)) entries) errMsg
  = Returns (errMsg +:+ join (map (fun '(d, msg) => entry_line d msg) entries)).
Proof.
  induction entries as [|[d msg] entries IH]; intros errMsg.
  - simpl. by rewrite string_app_nil_r.
  - cbn [map Error_loop error_Error mbind outcome_bind].
    rewrite IH. cbn [join foldr].
    fold (join (map (fun '(d, msg) => entry_line d msg) entries)).
    by rewrite string_app_assoc.
Qed.

(** A nil error among the visited entries makes the call panic. *)
Lemma Error_loop_nil (order : list (string * error)) : forall errMsg,
  (exists d, (d, None) ∈ order) ->
  Error_loop order errMsg = Panics "nil pointer dereference".
Proof.
  induction order as [|[d e] order IH]; intros errMsg [d0 Hin].
  - by apply elem_of_nil in Hin.
  - destruct e as [msg|]; [|done].
    cbn [Error_loop error_Error mbind outcome_bind].
    apply IH. exists d0. apply elem_of_cons in Hin as [Heq|Hin]; [done|done].
Qed.



Lemma Contains_join (lines : list string) (line : string) :
  line ∈ lines -> Contains (join lines) line = true.
Proof.
  intros (l1 & l2 & ->)%list_elem_of_split.
  rewrite join_app. apply Contains_app_l. cbn [join foldr].
  apply Contains_app_r, Contains_refl.
Qed.

(** The entries of a map without nil errors, as pairs of texts. *)
Lemma order_without_nil (order : list (string * error)) :
  (forall d, (d, None) ∉ order) ->
  exists entries : list (string * string),
    order = map (fun '(d, msg) => (d, Some msg)) entries.
Proof.
  induction order as [|[d e] order IH]; intros Hnil.
  - by exists [].
  - destruct IH as [entries ->].
    { intros d0 Hin. apply (Hnil d0). by right. }
    destruct e as [msg|].
    + by exists ((d, msg) :: entries).
    + destruct (Hnil d). by left.
Qed.




(** The version of the file in [src/unnamed/part_008] writes two lines per
    entry and renders a nil error as [<nil>]. *)
Lemma Error_loop'_lines (order : list (string * error)) : forall errMsg,
  Error_loop' order errMsg
  = errMsg +:+ join (map (fun '(d, e) =>
                       "Domain: " +:+ d +:+ nl +:+ "Error: "
                       +:+ default "<nil>" e +:+ nl) order).
Proof.
  induction order as [|[d e] order IH]; intros errMsg.
  - simpl. by rewrite string_app_nil_r.
  - cbn [Error_loop' map join foldr]. rewrite IH.
    destruct e; simpl; by rewrite string_app_assoc.
Qed.

Lemma Error'_lines (me : MultiError)
    (visit : gmap string error -> list (string * error)) :
  Error' me visit
  = "Multiple errors occurred:" +:+ nl
    +:+ join (map (fun '(d, e) =>
                "Domain: " +:+ d +:+ nl +:+ "Error: "
                +:+ default "<nil>" e +:+ nl) (visit (Errors me))).
Proof.
  unfold Error'. by rewrite Error_loop'_lines, string_app_assoc.
Qed.

End MultiError_facts.

Section Prober_facts.
Import scraper.

Variable SystemCertPool : x509.CertPool + string.
Variable Verify : x509.Certificate -> x509.VerifyOptions -> option x509.VerifyError.
Variable now : x509.Time.
Variable Time_String : x509.Time -> string.
Variable IP_String : list Z -> string.
Variable LookupAddr : string -> option (list string + string).

Lemma verify_chain_CertChain cert certs name name_case cd :
  CertChain (verify_chain SystemCertPool Verify cert certs name name_case cd)
  = CertChain cd.
Proof. unfold verify_chain. by destruct (Verify _ _). Qed.

(** What the window check leaves in the record, whatever was there. *)
Lemma check_window_spec cert cd :
  let cd' := check_window now cert cd in
  CertChain cd' = CertChain cd
  /\ (x509.NotAfter cert < now ->
      Valid cd' = false
      /\ exists before,
           ValidationErrs cd' = before ++ ["Certificate has expired"])
  /\ (now < x509.NotBefore cert ->
      Valid cd' = false
      /\ exists before after,
           ValidationErrs cd'
           = before ++ ["Certificate is not yet valid"] ++ after
           /\ (after = [] \/ after = ["Certificate has expired"])).
Proof.
  unfold check_window.
  destruct (Z.ltb_spec now (x509.NotBefore cert)) as [Hnb|Hnb],
           (Z.ltb_spec (x509.NotAfter cert) now) as [Hna|Hna];
    simpl; (split_and!; [done| |]); intros H; try lia; (split; [done|]).
  - by eexists.
  - exists (ValidationErrs cd), ["Certificate has expired"].
    split; [by rewrite <- app_assoc|auto].
  - exists (ValidationErrs cd), []. auto.
  - by eexists.
Qed.

(** C4. After a fetch that returned no error, by domain or by IP address:
    when the clock is past the leaf's [NotAfter] the record is invalid and
    its last reason is the expiry; when the clock is before the leaf's
    [NotBefore] the record is invalid and holds the not-yet-valid reason,
    last or followed by the expiry only.  [Verify] is arbitrary: the
    outcome of chain verification plays no part. *)
Theorem fetch_checks_validity_window :
  (forall cd domain (dialer : Dialer) cd',
     fetchFromDomainWithDialer SystemCertPool Verify now Time_String
       cd domain dialer = (cd', None) ->
     exists leaf rest,
       dialer "tcp" (domain +:+ ":443") = inl (TLSConn (leaf :: rest))
       /\ CertChain cd' = leaf :: rest
       /\ (x509.NotAfter leaf < now ->
           Valid cd' = false
           /\ exists before,
                ValidationErrs cd' = before ++ ["Certificate has expired"])
       /\ (now < x509.NotBefore leaf ->
           Valid cd' = false
           /\ exists before after,
                ValidationErrs cd'
                = before ++ ["Certificate is not yet valid"] ++ after
                /\ (after = [] \/ after = ["Certificate has expired"])))
  /\ (forall cd ip port (dialer : Dialer) cd',
        fetchFromIPWithDialer SystemCertPool Verify now Time_String IP_String
          LookupAddr cd ip port dialer = (cd', None) ->
        exists leaf rest details,
          dialer "tcp" (IP_String ip +:+ ":" +:+ pretty port)
          = inl (TLSConn (leaf :: rest))
          /\ Details cd' = Some details
          /\ CertChain details = leaf :: rest
          /\ (x509.NotAfter leaf < now ->
              Valid details = false
              /\ exists before,
                   ValidationErrs details
                   = before ++ ["Certificate has expired"])
          /\ (now < x509.NotBefore leaf ->
              Valid details = false
              /\ exists before after,
                   ValidationErrs details
                   = before ++ ["Certificate is not yet valid"] ++ after
                   /\ (after = [] \/ after = ["Certificate has expired"]))).
Proof.
  split.
  - intros cd domain dialer cd'. unfold fetchFromDomainWithDialer.
    destruct (dialer "tcp" (domain +:+ ":443")) as [[certs|ty]|err];
      [|done..].
    destruct certs as [|leaf rest]; [done|].
    intros [= <-]. exists leaf, rest.
    match goal with |- context [check_window now leaf ?d] =>
      destruct (check_window_spec leaf d) as (Hchain & Hexp & Hnyv) end.
    split_and!; [done| |done|done].
    by rewrite Hchain, verify_chain_CertChain.
  - intros cd ip port dialer cd'. unfold fetchFromIPWithDialer.
    destruct (dialer "tcp" (IP_String ip +:+ ":" +:+ pretty port))
      as [[certs|ty]|err]; [|done..].
    destruct certs as [|leaf rest]; [done|].
    destruct (reverseDNSLookup IP_String LookupAddr ip) as [hostname|err];
      intros [= <-]; exists leaf, rest; eexists; cbn [Details];
      (split_and!; [done|reflexivity|..]);
      match goal with |- context [check_window now leaf ?d] =>
        destruct (check_window_spec leaf d) as (Hchain & Hexp & Hnyv) end;
      try done; by rewrite Hchain, verify_chain_CertChain.
Qed.

End Prober_facts.

Section Checker_facts.
Import ocsp.

Variable CreateRequest :
  x509.Certificate -> x509.Certificate -> list Z + string.
Variable http_Post : Post -> list Z + string.
Variable ParseResponse : list Z -> x509.Certificate -> Response + string.

Abbreviation GetOCSPResp' := (GetOCSPResp CreateRequest http_Post ParseResponse).
Abbreviation CheckOCSPStatus' :=
  (CheckOCSPStatus CreateRequest http_Post ParseResponse).

(** At most one request is made, and it goes to the first responder URL. *)
Lemma GetOCSPResp_posts (o : OCSPChecker) :
  (GetOCSPResp' o).1 = []
  \/ exists server rest ocspReq,
       x509.OCSPServer (Checker_Certificate o) = server :: rest
       /\ CreateRequest (Checker_Certificate o) (Checker_Issuer o) = inl ocspReq
       /\ (GetOCSPResp' o).1
          = [{| url := server; contentType := "application/ocsp-request";
                body := ocspReq |}].
Proof.
  unfold GetOCSPResp.
  destruct (x509.OCSPServer (Checker_Certificate o)) as [|server rest];
    [by left|].
  destruct (CreateRequest _ _) as [ocspReq|err]; [|by left].
  right. exists server, rest, ocspReq. split_and!; [done..|].
  destruct (http_Post _) as [ocspResp|?]; [|done].
  destruct (ParseResponse ocspResp (Checker_Issuer o)) as [resp|?]; [|done].
  destruct (Certificate resp) as [responder|]; [|done].
  by destruct (ParseResponse ocspResp responder).
Qed.

(** C9. [CheckOCSPStatus] fails with the no-server error, without any
    request, when the certificate names no responder.  When it names some,
    the request that [CreateRequest] encodes is posted once, to the first
    URL, whatever the other URLs are: an encoding error is returned before
    any request; an error of the exchange, or of parsing the body against
    the issuer or against the responder certificate the response carries,
    is returned after that one request, with no other URL tried; and when
    the body parses, the call fails with the invalid-status error exactly
    when the parsed status is not good and succeeds when it is good.
    Conversely every response [GetOCSPResp] yields is the parse of the body
    that the POST to the first URL returned. *)
Theorem CheckOCSPStatus_outcomes (o : OCSPChecker) :
  (x509.OCSPServer (Checker_Certificate o) = [] ->
     CheckOCSPStatus' o = ([], Some "no OCSP server specified in cert"))
  /\ (forall server rest,
        x509.OCSPServer (Checker_Certificate o) = server :: rest ->
        (forall err,
           CreateRequest (Checker_Certificate o) (Checker_Issuer o) = inr err ->
           CheckOCSPStatus' o = ([], Some err))
        /\ (forall ocspReq,
              CreateRequest (Checker_Certificate o) (Checker_Issuer o)
              = inl ocspReq ->
              let post := {| url := server;
                             contentType := "application/ocsp-request";
                             body := ocspReq |} in
              (forall err, http_Post post = inr err ->
                 CheckOCSPStatus' o = ([post], Some err))
              /\ (forall ocspResp, http_Post post = inl ocspResp ->
                    (forall err,
                       ParseResponse ocspResp (Checker_Issuer o) = inr err ->
                       CheckOCSPStatus' o = ([post], Some err))
                    /\ (forall resp0,
                          ParseResponse ocspResp (Checker_Issuer o) = inl resp0 ->
                          (Certificate resp0 = None ->
                             GetOCSPResp' o = ([post], inl resp0)
                             /\ (Status resp0 = Good ->
                                 CheckOCSPStatus' o = ([post], None))
                             /\ (Status resp0 <> Good ->
                                 CheckOCSPStatus' o
                                 = ([post], Some "invalid OCSP status")))
                          /\ (forall responder,
                                Certificate resp0 = Some responder ->
                                (forall err,
                                   ParseResponse ocspResp responder = inr err ->
                                   CheckOCSPStatus' o = ([post], Some err))
                                /\ (forall resp,
                                      ParseResponse ocspResp responder = inl resp ->
                                      GetOCSPResp' o = ([post], inl resp)
                                      /\ (Status resp = Good ->
                                          CheckOCSPStatus' o = ([post], None))
                                      /\ (Status resp <> Good ->
                                          CheckOCSPStatus' o
                                          = ([post],
                                             Some "invalid OCSP status"))))))))
  /\ (forall posts resp, GetOCSPResp' o = (posts, inl resp) ->
        (exists server rest ocspReq ocspResp resp0,
           x509.OCSPServer (Checker_Certificate o) = server :: rest
           /\ CreateRequest (Checker_Certificate o) (Checker_Issuer o)
              = inl ocspReq
           /\ posts = [{| url := server;
                          contentType := "application/ocsp-request";
                          body := ocspReq |}]
           /\ http_Post {| url := server;
                           contentType := "application/ocsp-request";
                           body := ocspReq |} = inl ocspResp
           /\ ParseResponse ocspResp (Checker_Issuer o) = inl resp0
           /\ ((Certificate resp0 = None /\ resp = resp0)
               \/ exists responder,
                    Certificate resp0 = Some responder
                    /\ ParseResponse ocspResp responder = inl resp))
        /\ (Status resp <> Good <->
              CheckOCSPStatus' o = (posts, Some "invalid OCSP status"))
        /\ (Status resp = Good <-> CheckOCSPStatus' o = (posts, None)))
  /\ (forall posts err, GetOCSPResp' o = (posts, inr err) ->
        CheckOCSPStatus' o = (posts, Some err))
  /\ (CheckOCSPStatus' o).1 = (GetOCSPResp' o).1
  /\ ((CheckOCSPStatus' o).1 = []
      \/ exists server rest ocspReq,
           x509.OCSPServer (Checker_Certificate o) = server :: rest
           /\ (CheckOCSPStatus' o).1
              = [{| url := server; contentType := "application/ocsp-request";
                    body := ocspReq |}]).
Proof.
  assert (Hposts : (CheckOCSPStatus' o).1 = (GetOCSPResp' o).1).
  { unfold CheckOCSPStatus. destruct (GetOCSPResp' o) as [posts [resp|err]];
      [|done]. by destruct (negb _). }
  assert (Hstatus : forall posts resp, GetOCSPResp' o = (posts, inl resp) ->
            (Status resp = Good -> CheckOCSPStatus' o = (posts, None))
            /\ (Status resp <> Good ->
                CheckOCSPStatus' o = (posts, Some "invalid OCSP status"))).
  { intros posts resp Hresp. unfold CheckOCSPStatus. rewrite Hresp.
    by destruct (Z.eqb_spec (Status resp) Good). }
  assert (Herror : forall posts err, GetOCSPResp' o = (posts, inr err) ->
            CheckOCSPStatus' o = (posts, Some err)).
  { intros posts err Hresp. unfold CheckOCSPStatus. by rewrite Hresp. }
  split_and!.
  - intros Hnone. apply Herror. unfold GetOCSPResp. by rewrite Hnone.
  - intros server rest Hserver. split.
    { intros err Hreq. apply Herror. unfold GetOCSPResp.
      by rewrite Hserver, Hreq. }
    intros ocspReq Hreq post. split.
    { intros err Hpost. apply Herror. unfold GetOCSPResp.
      rewrite Hserver, Hreq. fold post. by rewrite Hpost. }
    intros ocspResp Hpost. split.
    { intros err Hparse. apply Herror. unfold GetOCSPResp.
      rewrite Hserver, Hreq. fold post. by rewrite Hpost, Hparse. }
    intros resp0 Hparse. split.
    { intros Hcert.
      assert (Hrun : GetOCSPResp' o = ([post], inl resp0)).
      { unfold GetOCSPResp. rewrite Hserver, Hreq. fold post.
        by rewrite Hpost, Hparse, Hcert. }
      split; [done|]. by apply Hstatus. }
    intros responder Hcert. split.
    { intros err Hparse'. apply Herror. unfold GetOCSPResp.
      rewrite Hserver, Hreq. fold post.
      by rewrite Hpost, Hparse, Hcert, Hparse'. }
    intros resp Hparse'.
    assert (Hrun : GetOCSPResp' o = ([post], inl resp)).
    { unfold GetOCSPResp. rewrite Hserver, Hreq. fold post.
      by rewrite Hpost, Hparse, Hcert, Hparse'. }
    split; [done|]. by apply Hstatus.
  - intros posts resp Hresp. split.
    + revert Hresp. unfold GetOCSPResp.
      destruct (x509.OCSPServer (Checker_Certificate o)) as [|server rest];
        [done|].
      destruct (CreateRequest _ _) as [ocspReq|?]; [|done].
      destruct (http_Post _) as [ocspResp|?] eqn:Hpost; [|done].
      destruct (ParseResponse ocspResp (Checker_Issuer o)) as [resp0|?]
        eqn:Hparse; [|done].
      destruct (Certificate resp0) as [responder|] eqn:Hcert.
      * destruct (ParseResponse ocspResp responder) as [resp'|?] eqn:Hparse';
          [|done].
        intros [= <- <-]. exists server, rest, ocspReq, ocspResp, resp0.
        split_and!; try done. right. by exists responder.
      * intros [= <- <-]. exists server, rest, ocspReq, ocspResp, resp0.
        split_and!; try done. by left.
    + destruct (Hstatus posts resp Hresp) as [Hgood Hbad].
      destruct (decide (Status resp = Good)) as [Hg|Hb].
      * rewrite (Hgood Hg). split; split; try done; by intros [=].
      * rewrite (Hbad Hb). split; split; try done; by intros [=].
  - exact Herror.
  - done.
  - rewrite Hposts.
    destruct (GetOCSPResp_posts o) as [?|(server & rest & req & ? & ? & ?)];
      [by left|]. right. by exists server, rest, req.
Qed.

End Checker_facts.

Section Orchestrator_facts.
Import scraper.

Variable fetchFromDomain : nat -> string -> CertDetails * error.

Abbreviation step' := (step fetchFromDomain).
Abbreviation consistent' := (consistent fetchFromDomain).
Abbreviation probes' := (probes fetchFromDomain).
Abbreviation probe_of' := (probe_of fetchFromDomain).
Abbreviation sent_result' := (sent_result fetchFromDomain).
Abbreviation sent_error' := (sent_error fetchFromDomain).

Lemma probes_spawn (websites : list string) :
  probe_of' <$> goroutines (spawn websites) = probes' websites.
Proof. unfold spawn, probes. simpl. by rewrite fmap_imap. Qed.

Lemma omap_all_none {A B} (f : A -> option B) (l : list A) :
  Forall (fun x => f x = None) l -> omap f l = [].
Proof. induction 1 as [|x l Hx _ IH]; [done|]. simpl. by rewrite Hx. Qed.

Lemma sum_list_all_zero {A} (f : A -> nat) (l : list A) :
  Forall (fun x => f x = 0%nat) l -> sum_list_with f l = 0%nat.
Proof. induction 1 as [|x l Hx _ IH]; [done|]. simpl. by rewrite Hx, IH. Qed.

Lemma spawn_waiting (websites : list string) :
  Forall (fun g => at_ g = Waiting) (goroutines (spawn websites)).
Proof.
  apply Forall_forall. intros g Hg. simpl in Hg.
  by apply elem_of_lookup_imap in Hg as (i & w & -> & _).
Qed.

Lemma spawn_consistent (websites : list string) :
  consistent' websites (spawn websites).
Proof.
  pose proof (spawn_waiting websites) as Hwait.
  split.
  - apply probes_spawn.
  - eapply Forall_impl; [exact Hwait|]. intros g Hg ?? Hf. congruence.
  - simpl results. rewrite omap_all_none; [done|].
    eapply Forall_impl; [exact Hwait|]. intros g Hg.
    unfold sent_result, is_finished. by rewrite Hg.
  - simpl errorChan. rewrite omap_all_none; [done|].
    eapply Forall_impl; [exact Hwait|]. intros g Hg.
    unfold sent_error, is_finished. by rewrite Hg.
  - simpl sem. unfold holders. rewrite sum_list_all_zero; [done|].
    eapply Forall_impl; [exact Hwait|]. intros g Hg.
    unfold is_holding. by rewrite Hg.
Qed.

Lemma holders_middle (gs1 gs2 : list goroutine) (g : goroutine) :
  holders (gs1 ++ g :: gs2)
  = (holders gs1 + (if is_holding g then 1 else 0) + holders gs2)%nat.
Proof. unfold holders. rewrite sum_list_with_app. simpl. lia. Qed.

Lemma rank_middle (gs1 gs2 : list goroutine) (g : goroutine) :
  sum_list_with rank (gs1 ++ g :: gs2)
  = (sum_list_with rank gs1 + rank g + sum_list_with rank gs2)%nat.
Proof. rewrite sum_list_with_app. simpl. lia. Qed.

Lemma omap_middle {A B} (f : A -> option B) (l1 l2 : list A) (x : A) :
  omap f (l1 ++ x :: l2) = omap f l1 ++ option_list (f x) ++ omap f l2.
Proof. rewrite omap_app. csimpl. by destruct (f x). Qed.

Lemma Permutation_snoc_middle {A} (l l1 l2 : list A) (x : A) :
  l ≡ₚ l1 ++ l2 -> l ++ [x] ≡ₚ l1 ++ [x] ++ l2.
Proof.
  intros ->. rewrite <- Permutation_cons_append. simpl.
  apply Permutation_middle.
Qed.

Ltac middle_norm :=
  cbn [scraper.goroutines scraper.sem scraper.results scraper.errorChan];
  rewrite ?fmap_app, ?fmap_cons, ?omap_middle, ?holders_middle,
    ?Forall_app, ?Forall_cons;
  unfold scraper.sent_result, scraper.sent_error, scraper.is_finished,
    scraper.is_holding, scraper.probe_of, scraper.success_of,
    scraper.failure_of;
  cbn [scraper.at_ scraper.idx scraper.site fst snd option_list].

(** Every step keeps the invariant. *)
Lemma step_consistent (websites : list string) (concurrency : Z) (s s' : state) :
  consistent' websites s -> step' concurrency s s' -> consistent' websites s'.
Proof.
  intros [Hprobes Hfetched Hresults Herrors Hsem] Hstep.
  destruct Hstep as [gs1 gs2 i site0 sem0 results0 errorChan0 Hfree
                    |gs1 gs2 i site0 sem0 results0 errorChan0
                    |gs1 gs2 i site0 certInfo err sem0 results0 errorChan0 Herr
                    |gs1 gs2 i site0 certInfo sem0 results0 errorChan0];
    revert Hprobes Hfetched Hresults Herrors Hsem; middle_norm;
    intros Hprobes (Hf1 & Hg & Hf2) Hresults Herrors Hsem.
  - split; middle_norm.
    + done.
    + split_and!; [done| |done]. intros ?? [=].
    + done.
    + done.
    + lia.
  - split; middle_norm.
    + done.
    + split_and!; [done| |done]. intros ?? [= <- <-].
      by destruct (fetchFromDomain i site0).
    + done.
    + done.
    + lia.
  - specialize (Hg certInfo err eq_refl). split; middle_norm.
    + done.
    + split_and!; [done| |done]. intros ?? [=].
    + rewrite Hg. cbn. by destruct err.
    + rewrite Hg. cbn. destruct err as [e|]; [|done]. cbn.
      by apply Permutation_snoc_middle.
    + done.
  - specialize (Hg certInfo None eq_refl). split; middle_norm.
    + done.
    + split_and!; [done| |done]. intros ?? [=].
    + rewrite Hg. cbn. by apply Permutation_snoc_middle.
    + by rewrite Hg.
    + done.
Qed.

Lemma rtc_consistent (websites : list string) (concurrency : Z) (s s' : state) :
  consistent' websites s -> rtc (step' concurrency) s s' ->
  consistent' websites s'.
Proof. induction 2; eauto using step_consistent. Qed.

(** Every step uses up one unit of the work that is left. *)
Lemma step_work (concurrency : Z) (s s' : state) :
  step' concurrency s s' -> work_left s = S (work_left s').
Proof.
  destruct 1; unfold work_left; cbn [goroutines];
    rewrite !rank_middle; unfold rank; cbn [at_]; lia.
Qed.



Lemma find_unfinished (gs : list goroutine) :
  Forall (fun g => at_ g = Finished) gs
  \/ exists gs1 g gs2, gs = gs1 ++ g :: gs2 /\ at_ g <> Finished.
Proof.
  induction gs as [|g gs [IH|(gs1 & g' & gs2 & -> & Hg')]].
  - left. constructor.
  - destruct (at_ g) eqn:E.
    + right. exists [], g, gs. split; [done|congruence].
    + right. exists [], g, gs. split; [done|congruence].
    + right. exists [], g, gs. split; [done|congruence].
    + left. by constructor.
  - right. by exists (g :: gs1), g', gs2.
Qed.

Lemma find_holder (gs : list goroutine) :
  (0 < holders gs)%nat ->
  exists gs1 i site0 gs2,
    gs = gs1 ++ {| idx := i; site := site0; at_ := Holding |} :: gs2.
Proof.
  unfold holders. induction gs as [|[i site0 ph] gs IH]; simpl; [lia|].
  unfold is_holding at 1. cbn [at_]. destruct ph; simpl; intros Hpos;
    try (destruct (IH Hpos) as (gs1 & i' & site' & gs2 & ->);
         by eexists (_ :: gs1), i', site', gs2).
  by exists [], i, site0, gs.
Qed.

(** No deadlock: with at least one token in the semaphore, a state in which
    some goroutine has not returned has a step. *)
Lemma step_progress (websites : list string) (concurrency : Z) (s : state) :
  1 <= concurrency -> consistent' websites s -> ~ all_finished s ->
  exists s', step' concurrency s s'.
Proof.
  intros Hc Hcons Hnot. destruct s as [gs sem0 results0 errorChan0].
  destruct (find_unfinished gs) as [Hall|(gs1 & [i site0 ph] & gs2 & -> & Hg)];
    [done|].
  cbn [at_] in Hg. destruct ph as [| |certInfo err|]; [| | |done].
  - destruct (decide (sem0 < concurrency)) as [Hfree|Hfull].
    + eexists. by apply step_acquire.
    + pose proof (cons_sem _ _ _ Hcons) as Hsem. cbn [sem goroutines] in Hsem.
      destruct (find_holder (gs1 ++ {| idx := i; site := site0; at_ := Waiting |} :: gs2))
        as (gs1' & i' & site' & gs2' & ->); [lia|].
      eexists. apply step_fetch.
  - eexists. apply step_fetch.
  - destruct err as [e|].
    + eexists. by apply step_failed.
    + eexists. apply step_success.
Qed.

(** From every consistent state the call can run to the point where all
    goroutines have returned. *)
Lemma can_finish (websites : list string) (concurrency : Z) :
  1 <= concurrency ->
  forall n s, work_left s = n -> consistent' websites s ->
  exists s', rtc (step' concurrency) s s' /\ all_finished s'.
Proof.
  intros Hc. induction n as [|n IH]; intros s Hn Hcons.
  - exists s. split; [done|].
    destruct (find_unfinished (goroutines s))
      as [Hall|(gs1 & g & gs2 & Hgs & Hg)]; [done|].
    unfold work_left in Hn. rewrite Hgs, rank_middle in Hn.
    unfold rank at 2 in Hn. destruct (at_ g); done || lia.
  - destruct (find_unfinished (goroutines s)) as [Hall|Hsome].
    { by exists s. }
    destruct (step_progress websites concurrency s Hc Hcons) as [s1 Hstep].
    { intros Hall. destruct Hsome as (gs1 & g & gs2 & Hgs & Hg).
      red in Hall. rewrite Hgs in Hall.
      apply Forall_app in Hall as [_ Hall]. by apply Forall_cons in Hall as [? _]. }
    destruct (IH s1) as (s' & Hrun & Hfin).
    + apply step_work in Hstep. lia.
    + eauto using step_consistent.
    + exists s'. split; [|done]. by eapply rtc_l.
Qed.

Lemma omap_sent_finished (gs : list goroutine) :
  Forall (fun g => at_ g = Finished) gs ->
  omap sent_result' gs = omap success_of (probe_of' <$> gs)
  /\ omap sent_error' gs = omap failure_of (probe_of' <$> gs).
Proof.
  induction 1 as [|g gs Hg _ [IH1 IH2]]; [done|].
  csimpl. unfold sent_result at 1, sent_error at 1, is_finished.
  rewrite Hg, IH1, IH2. done.
Qed.

(** Once all goroutines have returned, [results] holds the records of the
    successful probes and [errorChan] the failures, in some order. *)
Lemma finished_channels (websites : list string) (s : state) :
  consistent' websites s -> all_finished s ->
  results s ≡ₚ succeeded fetchFromDomain websites
  /\ errorChan s ≡ₚ failed fetchFromDomain websites.
Proof.
  intros [Hprobes _ Hresults Herrors _] Hall.
  destruct (omap_sent_finished _ Hall) as [H1 H2].
  unfold succeeded, failed. rewrite <- Hprobes, <- H1, <- H2. done.
Qed.

Lemma elem_of_failed (websites : list string) (site0 : string) (e : error) :
  (site0, e) ∈ failed fetchFromDomain websites
  <-> exists i, websites !! i = Some site0
                /\ (fetchFromDomain i site0).2 = e /\ e <> None.
Proof.
  unfold failed, probes. rewrite list_elem_of_omap. split.
  - intros ([w [cd err]] & Hin & Hf).
    apply elem_of_lookup_imap in Hin as (i & w' & [= -> Hfetch] & Hi).
    unfold failure_of in Hf. cbn in Hf. destruct err as [msg|]; [|done].
    injection Hf as -> <-. exists i. rewrite <- Hfetch. done.
  - intros (i & Hi & He & Hne).
    exists (site0, fetchFromDomain i site0). split.
    + apply elem_of_lookup_imap. eauto.
    + unfold failure_of. cbn. rewrite He. by destruct e.
Qed.


(** The map the caller fills from [errorChan]. *)
Lemma foldl_insert_dom (l : list (string * error)) :
  forall (m : gmap string error) (d : string),
  d ∈ dom (foldl (fun m '(domain, e) => <[domain := e]> m) m l)
  <-> d ∈ dom m \/ d ∈ l.*1.
Proof.
  induction l as [|[d' e] l IH]; intros m d; csimpl.
  - rewrite elem_of_nil. tauto.
  - rewrite IH, dom_insert_L, elem_of_union, elem_of_singleton, elem_of_cons.
    tauto.
Qed.

Lemma foldl_insert_lookup (l : list (string * error)) :
  forall (m : gmap string error) d e,
  foldl (fun m '(domain, e) => <[domain := e]> m) m l !! d = Some e ->
  m !! d = Some e \/ (d, e) ∈ l.
Proof.
  induction l as [|[d' e'] l IH]; intros m d e; csimpl; [auto|].
  intros [Hm|Hin]%IH; [|right; by right].
  apply lookup_insert_Some in Hm as [[-> ->]|[_ Hm]]; [right; by left|by left].
Qed.

(** What [collect] makes of the channels of a finished call. *)
Lemma collect_finished (websites : list string) (s : state) :
  consistent' websites s -> all_finished s ->
  (collect s).1 ≡ₚ succeeded fetchFromDomain websites
  /\ (failed fetchFromDomain websites = [] -> (collect s).2 = None)
  /\ (failed fetchFromDomain websites <> [] ->
      exists me,
        (collect s).2 = Some me
        /\ dom (Errors me) = list_to_set (failed fetchFromDomain websites).*1
        /\ (forall d e, Errors me !! d = Some e ->
              (d, e) ∈ failed fetchFromDomain websites)).
Proof.
  intros Hcons Hall.
  destruct (finished_channels websites s Hcons Hall) as [Hres Herr].
  unfold collect.
  set (multiError := foldl (fun m '(domain, e) => <[domain := e]> m) ∅ (errorChan s)).
  assert (Hdom : dom multiError
                 = list_to_set (failed fetchFromDomain websites).*1).
  { unfold multiError. apply set_eq. intros d.
    rewrite foldl_insert_dom, dom_empty_L, elem_of_list_to_set, Herr.
    split; [intros [Hd|Hd]; [by apply elem_of_empty in Hd|done]|auto]. }
  assert (Hlook : forall d e, multiError !! d = Some e ->
                    (d, e) ∈ failed fetchFromDomain websites).
  { intros d e [Hm|Hin]%foldl_insert_lookup; [done|]. by rewrite <- Herr. }
  split_and!.
  - by destruct (0 <? Z.of_nat (size multiError)).
  - intros Hnone. rewrite Hnone in Hdom. simpl in Hdom.
    apply dom_empty_iff_L in Hdom. by rewrite Hdom, map_size_empty.
  - intros Hsome.
    destruct (Z.ltb_spec 0 (Z.of_nat (size multiError))) as [Hpos|Hzero].
    + by exists {| Errors := multiError |}.
    + assert (multiError = ∅) as Hempty by (apply map_size_empty_iff; lia).
      rewrite Hempty, dom_empty_L in Hdom.
      destruct (failed fetchFromDomain websites) as [|[d e] l]; [done|].
      assert (Hd : d ∈ (∅ : gset string)); [|by apply elem_of_empty in Hd].
      rewrite Hdom, elem_of_list_to_set. csimpl. by left.
Qed.


(** X3. With no token in the semaphore no goroutine ever gets past
    [sem <- struct{}{}]: a call with targets does not return. *)
Lemma ScrapeTLS_zero_concurrency (websites : list string) :
  websites <> [] ->
  forall r, ~ ScrapeTLS fetchFromDomain websites 0 r.
Proof.
  intros Hne r (_ & s & Hrun & Hfin & _).
  assert (Hstuck : forall s', rtc (step' 0) (spawn websites) s' ->
                     s' = spawn websites).
  { intros s' Hrun'. revert s' Hrun'.
    apply (rtc_ind_r (fun s' => s' = spawn websites)); [done|].
    intros s2 s3 _ Hstep ->.
    pose proof (spawn_waiting websites) as Hwait.
    cbn [spawn goroutines] in Hwait.
    inversion Hstep as [gs1 gs2 i site0 sem0 res0 err0 Hfree Hs
                       |gs1 gs2 i site0 sem0 res0 err0 Hs
                       |gs1 gs2 i site0 cd e sem0 res0 err0 He Hs
                       |gs1 gs2 i site0 cd sem0 res0 err0 Hs];
      [lia|..];
      rewrite <- Hs in Hwait; apply Forall_app in Hwait as [_ Hwait];
      by apply Forall_cons in Hwait as [? _]. }
  rewrite (Hstuck s Hrun) in Hfin.
  pose proof (spawn_waiting websites) as Hwait. red in Hfin.
  destruct websites as [|w ws]; [done|]. unfold spawn in Hfin, Hwait.
  cbn in Hfin, Hwait. apply Forall_cons in Hfin as [Hf _]. done.
Qed.

End Orchestrator_facts.


Lemma CheckOCSPStatus_outcomes_witness :
  ocsp.CheckOCSPStatus fixtures.demo_CreateRequest
    (fixtures.demo_Post (inl [ocsp.Good])) fixtures.demo_ParseResponse
    fixtures.demo_checker
  = ([fixtures.demo_request], None)
  /\ ocsp.CheckOCSPStatus fixtures.demo_CreateRequest
       (fixtures.demo_Post (inl [ocsp.Revoked])) fixtures.demo_ParseResponse
       fixtures.demo_checker
     = ([fixtures.demo_request], Some "invalid OCSP status")
  /\ ocsp.CheckOCSPStatus fixtures.demo_CreateRequest
       (fixtures.demo_Post (inr "connection refused"))
       fixtures.demo_ParseResponse fixtures.demo_checker
     = ([fixtures.demo_request], Some "connection refused").
Proof.
  split_and!.
  - destruct (CheckOCSPStatus_outcomes fixtures.demo_CreateRequest
                (fixtures.demo_Post (inl [ocsp.Good]))
                fixtures.demo_ParseResponse fixtures.demo_checker)
      as (_ & Hserver & _).
    destruct (Hserver "http://ocsp.first.example"
                ["http://ocsp.second.example"] eq_refl) as [_ Hreq].
    destruct (Hreq [48; 3; 10; 1; 0] eq_refl) as [_ Hpost].
    destruct (Hpost [ocsp.Good] eq_refl) as [_ Hparse].
    destruct (Hparse {| ocsp.Status := ocsp.Good; ocsp.Certificate := None |}
                eq_refl) as [Hplain _].
    destruct (Hplain eq_refl) as (_ & Hgood & _).
    exact (Hgood eq_refl).
  - destruct (CheckOCSPStatus_outcomes fixtures.demo_CreateRequest
                (fixtures.demo_Post (inl [ocsp.Revoked]))
                fixtures.demo_ParseResponse fixtures.demo_checker)
      as (_ & Hserver & _).
    destruct (Hserver "http://ocsp.first.example"
                ["http://ocsp.second.example"] eq_refl) as [_ Hreq].
    destruct (Hreq [48; 3; 10; 1; 0] eq_refl) as [_ Hpost].
    destruct (Hpost [ocsp.Revoked] eq_refl) as [_ Hparse].
    destruct (Hparse {| ocsp.Status := ocsp.Revoked; ocsp.Certificate := None |}
                eq_refl) as [Hplain _].
    destruct (Hplain eq_refl) as (_ & _ & Hbad).
    apply Hbad. discriminate.
  - destruct (CheckOCSPStatus_outcomes fixtures.demo_CreateRequest
                (fixtures.demo_Post (inr "connection refused"))
                fixtures.demo_ParseResponse fixtures.demo_checker)
      as (_ & Hserver & _).
    destruct (Hserver "http://ocsp.first.example"
                ["http://ocsp.second.example"] eq_refl) as [_ Hreq].
    destruct (Hreq [48; 3; 10; 1; 0] eq_refl) as [Hdown _].
    exact (Hdown "connection refused" eq_refl).
Defined.

Lemma fetch_checks_validity_window_witness :
  scraper.Valid
    (scraper.fetchFromDomainWithDialer (inr "no system roots")
       (fun _ _ => None) 1793404800 pretty
       scraper.CertDetails_zero "example.com" fixtures.mockDialer).1 = false.
Proof.
  destruct (fetch_checks_validity_window (inr "no system roots")
              (fun _ _ => None) 1793404800 pretty (fun _ => "")
              (fun _ => None)) as [Hdomain _].
  destruct (Hdomain scraper.CertDetails_zero "example.com" fixtures.mockDialer
              _ eq_refl) as (leaf & rest & Hdial & _ & Hexpired & _).
  injection Hdial as <- <-. apply Hexpired. simpl. lia.
Defined.

Lemma ScrapeTLS_zero_concurrency_witness :
  ["reachable.example"] <> []
  /\ forall r,
       ~ scraper.ScrapeTLS fixtures.demo_fetch ["reachable.example"] 0 r.
Proof.
  assert (Hne : ["reachable.example"] <> []) by discriminate.
  split; [exact Hne|].
  exact (ScrapeTLS_zero_concurrency fixtures.demo_fetch ["reachable.example"]
           Hne).
Defined.

(** The probes of the example network: the reachable host yields a record
    that is invalid for two reasons (unknown signer, expired), the
    unreachable one a connection-class error. *)
Example demo_fetch_outcomes :
  (fixtures.demo_fetch 0 "reachable.example").2 = None
  /\ scraper.Valid (fixtures.demo_fetch 0 "reachable.example").1 = false
  /\ scraper.ValidationErrs (fixtures.demo_fetch 0 "reachable.example").1
     = ["Certificate signed by unknown authority (possibly self-signed)";
        "Certificate has expired"]
  /\ scraper.IsConnectionError
       (fixtures.demo_fetch 1 "unreachable.example").2 = true.
Proof. split_and!; reflexivity. Qed.

(** * Further properties of [internal/helper/ip.go] *)

Section CompareIPs_order.
Import helper.

Lemma lex_compare_antisym a : forall b, lex_compare b a = - lex_compare a b.
Proof.
  induction a as [|x a IH]; intros [|y b]; cbn [lex_compare]; try done.
  destruct (Z.ltb_spec x y), (Z.ltb_spec y x); try lia. apply IH.
Qed.

Lemma lex_compare_refl a : lex_compare a a = 0.
Proof.
  induction a as [|x a IH]; [done|]. cbn [lex_compare].
  by rewrite Z.ltb_irrefl.
Qed.

Lemma To4_idemp ip ip4 : To4 ip = Some ip4 -> To4 ip4 = Some ip4.
Proof.
  intros H. apply To4_length in H. unfold To4. by rewrite H.
Qed.

(** X4. Swapping the operands of [CompareIPs] negates the result; on
    operands of one length the result is 0 exactly for equal addresses; and
    an address compares equal to its own 4-byte form. *)
Theorem CompareIPs_antisymmetric (ip1 ip2 : IP) :
  (exists c : Z,
     CompareIPs ip1 ip2 = Returns c /\ CompareIPs ip2 ip1 = Returns (- c))
  /\ (length ip1 = length ip2 ->
      (CompareIPs ip1 ip2 = Returns 0 <-> ip1 = ip2))
  /\ (forall ip4, To4 ip1 = Some ip4 ->
        CompareIPs ip1 ip4 = Returns 0 /\ CompareIPs ip4 ip1 = Returns 0).
Proof.
  split_and!.
  - destruct (decide (length ip1 = length ip2)) as [Hlen|Hlen].
    + exists (lex_compare ip1 ip2).
      rewrite !CompareIPs_same_length by done.
      by rewrite (lex_compare_antisym ip1 ip2).
    + destruct (To4 ip1) as [a|] eqn:Ha; [destruct (To4 ip2) as [b|] eqn:Hb|].
      * exists (lex_compare a b).
        rewrite (CompareIPs_normalized ip1 ip2 a b),
                (CompareIPs_normalized ip2 ip1 b a) by done.
        by rewrite (lex_compare_antisym a b).
      * exists 0. rewrite !CompareIPs_incomparable; auto.
      * exists 0. rewrite !CompareIPs_incomparable; auto.
  - intros Hlen. rewrite CompareIPs_same_length by done. split.
    + intros [= H]. by apply lex_compare_eq.
    + intros <-. by rewrite lex_compare_refl.
  - intros ip4 H4.
    assert (H44 : To4 ip4 = Some ip4) by (by eapply To4_idemp).
    destruct (decide (length ip1 = length ip4)) as [Hlen|Hlen].
    + assert (ip1 = ip4) as <-; [|by rewrite CompareIPs_same_length,
                                          lex_compare_refl].
      pose proof (To4_length _ _ H4) as Hl4. rewrite <- Hlen in Hl4.
      unfold To4 in H4. rewrite Hl4 in H4. cbn in H4. by injection H4.
    + rewrite (CompareIPs_normalized ip1 ip4 ip4 ip4),
              (CompareIPs_normalized ip4 ip1 ip4 ip4) by done.
      by rewrite lex_compare_refl.
Qed.

End CompareIPs_order.

Section NextIP_order.
Import helper.

Lemma not_all_ones_val ip :
  wf_ip ip -> ~ Forall (eq 255) ip ->
  ip_val ip + 1 < 256 ^ Z.of_nat (length ip).
Proof.
  intros Hwf Hnot. pose proof (ip_val_bound ip Hwf).
  destruct (decide (ip_val ip = 256 ^ Z.of_nat (length ip) - 1)) as [E|]; [|lia].
  destruct Hnot. by apply all_ones_of_val.
Qed.

(** X5. On an address that is not all 0xFF bytes [NextIP] is the successor
    in the order of [CompareIPs]: the result has the same length, is greater
    than the address, and no address of that length lies strictly between
    the two. *)
Theorem NextIP_successor (ip : IP) :
  wf_ip ip -> ~ Forall (eq 255) ip ->
  length (NextIP ip) = length ip
  /\ wf_ip (NextIP ip)
  /\ ip_val (NextIP ip) = ip_val ip + 1
  /\ CompareIPs ip (NextIP ip) = Returns (-1)
  /\ (forall ip' : IP,
        wf_ip ip' -> length ip' = length ip ->
        CompareIPs ip ip' = Returns (-1) ->
        CompareIPs (NextIP ip) ip' = Returns (-1)
        \/ CompareIPs (NextIP ip) ip' = Returns 0).
Proof.
  intros Hwf Hnot.
  pose proof (not_all_ones_val ip Hwf Hnot) as Hmax.
  pose proof (ip_val_bound ip Hwf) as Hb.
  destruct (NextIP_spec ip Hwf) as (Hlen & Hwf' & Hval).
  rewrite Z.mod_small in Hval by lia.
  split_and!; [done..| |].
  - rewrite CompareIPs_same_length, lex_compare_val by done.
    rewrite Hval. by rewrite Z.sgn_neg by lia.
  - intros ip' Hw' Hl'.
    rewrite !CompareIPs_same_length, !lex_compare_val by congruence.
    rewrite Hval. intros [= Hlt].
    assert (ip_val ip < ip_val ip').
    { destruct (Z.lt_ge_cases (ip_val ip) (ip_val ip')); [done|].
      pose proof (Z.sgn_nonneg (ip_val ip - ip_val ip')). lia. }
    destruct (decide (ip_val ip + 1 = ip_val ip')) as [->|].
    + right. by rewrite Z.sub_diag.
    + left. by rewrite Z.sgn_neg by lia.
Qed.

End NextIP_order.

Lemma NextIP_successor_witness :
  helper.CompareIPs [10; 0; 0; 255] (helper.NextIP [10; 0; 0; 255])
  = Returns (-1).
Proof.
  assert (Hwf : helper.wf_ip [10; 0; 0; 255])
    by (repeat constructor; unfold helper.is_byte; lia).
  assert (Hnot : ~ Forall (eq 255) [10; 0; 0; 255])
    by (intros H; inversion H; discriminate).
  destruct (NextIP_successor [10; 0; 0; 255] Hwf Hnot) as (_ & _ & _ & H & _).
  exact H.
Defined.

(** * Further properties of [pkg/scraper/utils.go] *)

Section ChunkSlice_batches.
Import scraper.
Context {A : Type}.

(** The batches the loop appends from index [i] on, in closed form. *)
Lemma ChunkSlice_loop_batches (slice : list A) p i chunks :
  0 <= i ->
  ChunkSlice_loop slice p i chunks
  = chunks
    ++ map (fun k => take (Pos.to_nat p)
                          (drop (Z.to_nat i + k * Pos.to_nat p) slice))
           (seq 0 (Z.to_nat ((Z.of_nat (length slice) - i + Z.pos p - 1)
                             / Z.pos p))).
Proof.
  funelim (ChunkSlice_loop slice p i chunks); intros Hi.
  - rewrite H by lia. rewrite <- app_assoc. f_equal.
    set (len := Z.of_nat (length slice)) in *.
    assert (Hcount : Z.to_nat ((len - i + Z.pos chunkSize - 1) / Z.pos chunkSize)
                     = S (Z.to_nat ((len - (i + Z.pos chunkSize)
                                     + Z.pos chunkSize - 1) / Z.pos chunkSize))).
    { replace (len - i + Z.pos chunkSize - 1)
        with ((len - (i + Z.pos chunkSize) + Z.pos chunkSize - 1)
              + 1 * Z.pos chunkSize) by lia.
      rewrite Z.div_add by lia.
      assert (0 <= (len - (i + Z.pos chunkSize) + Z.pos chunkSize - 1)
                   / Z.pos chunkSize) by (apply Z.div_pos; lia).
      lia. }
    rewrite Hcount. cbn [seq map app]. f_equal.
    + rewrite Nat.mul_0_l, Nat.add_0_r. unfold subslice.
      destruct (decide (len < i + Z.pos chunkSize)).
      * rewrite !take_ge; [done|rewrite length_drop; lia..].
      * f_equal. lia.
    + rewrite <- seq_shift, map_map. apply map_ext. intros k.
      do 2 f_equal. lia.
  - assert (Hnone : (Z.of_nat (length slice) - i + Z.pos chunkSize - 1)
                    / Z.pos chunkSize <= 0).
    { apply Z.lt_succ_r. apply Z.div_lt_upper_bound; lia. }
    rewrite (Z2Nat.nonpos _ Hnone). simpl. by rewrite app_nil_r.
Qed.

(** X6. For a positive chunk size [C] the batches of [ChunkSlice] (and of
    [ChunkIPSlice], the same code) number the length divided by [C], rounded
    up; batch [k] is the [C] elements from index [k * C] on, or what is left
    of them; so element [j] of batch [k] is element [k * C + j] of the
    slice. *)
Theorem ChunkSlice_batch (L : list A) (C : Z) :
  0 < C ->
  Z.of_nat (length (ChunkSlice L C)) = (Z.of_nat (length L) + C - 1) / C
  /\ (forall k : nat,
        ChunkSlice L C !! k
        = if decide (Z.of_nat k * C < Z.of_nat (length L))
          then Some (take (Z.to_nat C) (drop (k * Z.to_nat C) L))
          else None)
  /\ (forall (k j : nat) chunk x,
        ChunkSlice L C !! k = Some chunk -> chunk !! j = Some x ->
        L !! (k * Z.to_nat C + j)%nat = Some x).
Proof.
  intros HC. destruct C as [|p|p]; try lia. cbn [ChunkSlice].
  rewrite ChunkSlice_loop_batches by lia. cbn [app].
  rewrite Z.sub_0_r. change (Z.to_nat 0) with 0%nat. cbn [Nat.add].
  change (Z.to_nat (Z.pos p)) with (Pos.to_nat p).
  set (n := (Z.of_nat (length L) + Z.pos p - 1) / Z.pos p).
  assert (Hn0 : 0 <= n) by (apply Z.div_pos; lia).
  assert (Hn : forall k : nat,
            (k < Z.to_nat n)%nat <-> Z.of_nat k * Z.pos p < Z.of_nat (length L)).
  { intros k. split.
    - intros Hk.
      assert (Z.of_nat k + 1 <= n) as Hle by lia.
      assert ((Z.of_nat k + 1) * Z.pos p <= n * Z.pos p) by nia.
      pose proof (Z.mul_div_le (Z.of_nat (length L) + Z.pos p - 1) (Z.pos p)
                    ltac:(lia)) as Hdiv.
      fold n in Hdiv. lia.
    - intros Hk.
      assert (Z.of_nat k < n); [|lia].
      apply Z.div_le_lower_bound with (b := Z.pos p)
                                      (a := Z.of_nat (length L) + Z.pos p - 1)
                                      (q := Z.of_nat k + 1) in HC; [fold n in HC; lia|lia]. }
  assert (Hlook : forall k : nat,
            map (fun k => take (Pos.to_nat p) (drop (k * Pos.to_nat p) L))
                (seq 0 (Z.to_nat n)) !! k
            = if decide (Z.of_nat k * Z.pos p < Z.of_nat (length L))
              then Some (take (Pos.to_nat p) (drop (k * Pos.to_nat p) L))
              else None).
  { intros k. destruct (decide _) as [Hk|Hk].
    - apply Hn in Hk. by rewrite list_lookup_fmap, lookup_seq_lt.
    - apply lookup_ge_None_2. rewrite length_map, length_seq.
      destruct (decide (k < Z.to_nat n)%nat) as [Hlt|]; [|lia].
      by apply Hn in Hlt. }
  split_and!.
  - rewrite length_map, length_seq. lia.
  - exact Hlook.
  - intros k j chunk x Hk Hj. rewrite Hlook in Hk.
    destruct (decide _); [|done]. injection Hk as <-.
    apply lookup_take_Some in Hj as [Hj _]. by rewrite lookup_drop in Hj.
Qed.

End ChunkSlice_batches.

Lemma ChunkSlice_batch_witness :
  scraper.ChunkSlice ["a"; "b"; "c"; "d"; "e"] 2 !! 2%nat = Some ["e"].
Proof.
  destruct (ChunkSlice_batch ["a"; "b"; "c"; "d"; "e"] 2 ltac:(lia))
    as (_ & Hk & _).
  exact (Hk 2%nat).
Defined.

(** * Further properties of [pkg/scraper/errorHandler.go] *)

Section MultiError_rendering.
Import scraper.

(** Without a nil error among the entries the text is the header and one
    line per entry of the map, whatever the order of the visit. *)
Lemma Error_returns_lines (me : MultiError)
    (visit : gmap string error -> list (string * error)) :
  range_order (Errors me) (visit (Errors me)) ->
  (forall d, Errors me !! d <> Some None) ->
  exists entries : list (string * string),
    Error me visit
    = Returns ("Multiple errors occurred:" +:+ nl
               +:+ join (map (fun '(d, msg) => entry_line d msg) entries))
    /\ forall d msg, Errors me !! d = Some (Some msg) <-> (d, msg) ∈ entries.
Proof.
  intros Horder Hnil. unfold Error.
  destruct (order_without_nil (visit (Errors me))) as [entries Hentries].
  { intros d Hin. apply (Hnil d). apply elem_of_map_to_list.
    by rewrite <- Horder. }
  exists entries. rewrite Hentries. split; [apply Error_loop_lines|].
  intros d msg. rewrite <- elem_of_map_to_list, <- Horder, Hentries.
  rewrite list_elem_of_fmap. split.
  - intros ([d' msg'] & [= -> ->] & Hin). done.
  - intros Hin. by exists (d, msg).
Qed.

(** X7. [MultiError.Error] dereferences each entry's error: it panics
    exactly when some target is mapped to the nil error, and returns a text
    exactly when none is; for the empty map the text is the header line
    alone. *)
Theorem MultiError_Error_panics_iff (me : MultiError)
    (visit : gmap string error -> list (string * error)) :
  range_order (Errors me) (visit (Errors me)) ->
  (Error me visit = Panics "nil pointer dereference"
   <-> exists d, Errors me !! d = Some None)
  /\ ((exists text, Error me visit = Returns text)
      <-> forall d, Errors me !! d <> Some None)
  /\ (Errors me = ∅ ->
      Error me visit = Returns ("Multiple errors occurred:" +:+ nl)).
Proof.
  intros Horder.
  assert (Hpanic : (exists d, Errors me !! d = Some None) ->
            Error me visit = Panics "nil pointer dereference").
  { intros [d Hd]. unfold Error. apply Error_loop_nil. exists d.
    rewrite Horder. by apply elem_of_map_to_list. }
  assert (Hcases : (exists d, Errors me !! d = Some None)
                   \/ forall d, Errors me !! d <> Some None).
  { destruct (decide (Exists (fun p => p.2 = None) (map_to_list (Errors me))))
      as [Hex|Hno].
    - left. apply Exists_exists in Hex as ([d e] & Hin & He).
      simpl in He. subst e. exists d. by apply elem_of_map_to_list.
    - right. intros d Hd. apply Hno, Exists_exists. exists (d, None).
      split; [by apply elem_of_map_to_list|done]. }
  split_and!.
  - split; [|done]. intros Hp. destruct Hcases as [|Hnil]; [done|].
    destruct (Error_returns_lines me visit Horder Hnil) as (? & Hr & _).
    congruence.
  - split.
    + intros [text Ht] d Hd.
      rewrite Hpanic in Ht by (by exists d). discriminate.
    + intros Hnil.
      destruct (Error_returns_lines me visit Horder Hnil) as (? & Hr & _).
      eauto.
  - intros Hempty. unfold Error. red in Horder.
    rewrite Hempty, map_to_list_empty in Horder.
    apply Permutation_nil_r in Horder. rewrite Hempty, Horder. done.
Qed.

End MultiError_rendering.

Lemma MultiError_Error_panics_iff_witness :
  scraper.Error {| scraper.Errors := {["example.com" := None]} |} map_to_list
  = Panics "nil pointer dereference".
Proof.
  destruct (MultiError_Error_panics_iff
              {| scraper.Errors := {["example.com" := None]} |} map_to_list)
    as (Hpanic & _).
  - unfold scraper.range_order. reflexivity.
  - apply Hpanic. exists "example.com". simpl. apply lookup_singleton_eq.
Defined.

(** * Further properties of the probes ([scraper.go], [ip_scraper.go]) *)

Section Probe_records.
Import scraper.

Variable SystemCertPool : x509.CertPool + string.
Variable Verify : x509.Certificate -> x509.VerifyOptions -> option x509.VerifyError.
Variable now : x509.Time.
Variable Time_String : x509.Time -> string.
Variable IP_String : list Z -> string.
Variable LookupAddr : string -> option (list string + string).

Abbreviation verify_options := (scan.verify_options SystemCertPool).

(** A record whose flag says that no reason has been recorded stays so
    through chain verification and the window check, and is valid at the
    end exactly if the chain verifies and the clock is in the window. *)
Lemma validation_spec cert certs name name_case cd :
  (Valid cd = true <-> ValidationErrs cd = []) ->
  Valid cd = true ->
  let cd' := check_window now cert
               (verify_chain SystemCertPool Verify cert certs name name_case cd) in
  (Valid cd' = true <-> ValidationErrs cd' = [])
  /\ (Valid cd' = true
      <-> Verify cert (verify_options name certs) = None
          /\ x509.NotBefore cert <= now <= x509.NotAfter cert)
  /\ (length (ValidationErrs cd') <= 3)%nat
  /\ Domain cd' = Domain cd /\ Serial cd' = Serial cd
  /\ Issuer cd' = Issuer cd /\ CertChain cd' = CertChain cd.
Proof.
  intros Hflag Hvalid. apply Hflag in Hvalid as Hnil.
  unfold check_window, verify_chain. fold (verify_options name certs).
  destruct (Verify cert (verify_options name certs)) as [e|];
    destruct (Z.ltb_spec now (x509.NotBefore cert)),
             (Z.ltb_spec (x509.NotAfter cert) now);
    cbn; rewrite ?Hnil, ?Hvalid; cbn;
    (split_and!; try done; try lia; try (split; [done|intros [? ?]; done || lia])).
  all: split; [done|]; intros H'; by destruct (ValidationErrs cd).
Qed.

(** X8. A fetch by domain that returns no error: the connection was a TLS
    connection with a non-empty chain, kept in the record, whose accessors
    return the leaf and the certificate after it; the record is valid
    exactly if it holds no reason, and exactly if the chain verifies for
    the domain and the clock is within the leaf's window; and the record
    does not depend on what the receiver held before. *)
Theorem fetchFromDomain_valid_iff cd domain (dialer : Dialer) cd' :
  fetchFromDomainWithDialer SystemCertPool Verify now Time_String
    cd domain dialer = (cd', None) ->
  exists leaf rest,
    dialer "tcp" (domain +:+ ":443") = inl (TLSConn (leaf :: rest))
    /\ Domain cd' = domain
    /\ scan.GetCertChain cd' = leaf :: rest
    /\ scan.GetLeafCert cd' = Some leaf
    /\ scan.GetIssuerCert cd' = head rest
    /\ (Valid cd' = true <-> ValidationErrs cd' = [])
    /\ (Valid cd' = true
        <-> Verify leaf (verify_options domain (leaf :: rest)) = None
            /\ x509.NotBefore leaf <= now <= x509.NotAfter leaf)
    /\ (length (ValidationErrs cd') <= 3)%nat
    /\ (forall cd0,
          fetchFromDomainWithDialer SystemCertPool Verify now Time_String
            cd0 domain dialer = (cd', None)).
Proof.
  unfold fetchFromDomainWithDialer.
  destruct (dialer "tcp" (domain +:+ ":443")) as [[certs|ty]|err]; [|done..].
  destruct certs as [|leaf rest]; [done|].
  intros [= <-]. exists leaf, rest.
  match goal with |- context [check_window now leaf (verify_chain _ _ _ _ _ ?n ?d)] =>
    destruct (validation_spec leaf (leaf :: rest) domain n d)
      as (Hflag & Hvalid & Hlen & Hdom & _ & _ & Hchain)
  end; [done|done|].
  cbn [Domain CertChain set_CertChain] in Hdom, Hchain.
  unfold scan.GetCertChain, scan.GetLeafCert, scan.GetIssuerCert.
  rewrite Hchain.
  split_and!; try done.
  destruct rest; reflexivity.
Qed.

(** X9. A fetch by domain returns an error exactly when no TLS connection
    with a non-empty chain is had; a failed verification or an expired
    certificate is no error.  When the dialer fails its error is returned
    as it is and the record is untouched, as when the connection cannot
    report a TLS state; for an empty chain only the chain of the record is
    overwritten, with the empty one. *)
Theorem fetchFromDomain_error cd domain (dialer : Dialer) :
  let r := fetchFromDomainWithDialer SystemCertPool Verify now Time_String
             cd domain dialer in
  (r.2 = None
   <-> exists leaf rest,
         dialer "tcp" (domain +:+ ":443") = inl (TLSConn (leaf :: rest)))
  /\ (forall err, dialer "tcp" (domain +:+ ":443") = inr err ->
        r = (cd, Some err))
  /\ (forall ty, dialer "tcp" (domain +:+ ":443") = inl (OtherConn ty) ->
        r = (cd, Some ("expected a ConnectionStateGetter, got " +:+ ty)))
  /\ (dialer "tcp" (domain +:+ ":443") = inl (TLSConn []) ->
        r.2 = Some ("no certificates found for domain " +:+ domain)
        /\ scan.GetLeafCert r.1 = None
        /\ scan.GetCertChain r.1 = []
        /\ Domain r.1 = Domain cd /\ Valid r.1 = Valid cd
        /\ ValidationErrs r.1 = ValidationErrs cd)
  /\ (r.2 <> None ->
        Domain r.1 = Domain cd /\ Serial r.1 = Serial cd
        /\ Valid r.1 = Valid cd /\ ValidationErrs r.1 = ValidationErrs cd).
Proof.
  unfold fetchFromDomainWithDialer.
  destruct (dialer "tcp" (domain +:+ ":443")) as [[[|leaf rest]|ty]|err];
    cbn [fst snd]; split_and!; try done.
  - split; [done|]. by intros (? & ? & ?).
  - split; [eauto|done].
  - split; [done|]. by intros (? & ? & ?).
  - by intros ? [= ->].
  - split; [done|]. by intros (? & ? & ?).
  - by intros ? [= ->].
Qed.

(** X10. A fetch by address that returns no error.  The address is both
    the [IP] and the [Domain] of the record and the names are those of the
    leaf.  If the reverse lookup answers, the host name is its first name
    without the trailing dot, it is looked for in the leaf, and the chain
    is verified for it; if the lookup fails, is empty or times out, the
    fetch still succeeds, the host name fields stay as they were and the
    chain is verified for no name.  Either way the record is valid exactly
    if that verification succeeds and the clock is within the leaf's
    window. *)
Theorem fetchFromIP_hostname cd ip port (dialer : Dialer) cd' :
  fetchFromIPWithDialer SystemCertPool Verify now Time_String IP_String
    LookupAddr cd ip port dialer = (cd', None) ->
  exists leaf rest details,
    dialer "tcp" (IP_String ip +:+ ":" +:+ pretty port)
    = inl (TLSConn (leaf :: rest))
    /\ Details cd' = Some details
    /\ IP cd' = IP_String ip
    /\ Domain details = IP_String ip
    /\ SANs cd' = x509.DNSNames leaf
    /\ (Valid details = true <-> ValidationErrs details = [])
    /\ (forall name names,
          LookupAddr (IP_String ip) = Some (inl (name :: names)) ->
          Hostname cd' = TrimSuffix name "."
          /\ HostnameInCert cd' = isHostnameInCert leaf (TrimSuffix name ".")
          /\ (Valid details = true
              <-> Verify leaf (verify_options (TrimSuffix name ".")
                                              (leaf :: rest)) = None
                  /\ x509.NotBefore leaf <= now <= x509.NotAfter leaf))
    /\ ((forall name names,
           LookupAddr (IP_String ip) <> Some (inl (name :: names))) ->
          Hostname cd' = Hostname cd
          /\ HostnameInCert cd' = HostnameInCert cd
          /\ (Valid details = true
              <-> Verify leaf (verify_options "" (leaf :: rest)) = None
                  /\ x509.NotBefore leaf <= now <= x509.NotAfter leaf)).
Proof.
  unfold fetchFromIPWithDialer.
  destruct (dialer "tcp" (IP_String ip +:+ ":" +:+ pretty port))
    as [[certs|ty]|err]; [|done..].
  destruct certs as [|leaf rest]; [done|].
  unfold reverseDNSLookup.
  destruct (LookupAddr (IP_String ip)) as [[[|name names]|err]|] eqn:Hlookup;
    intros [= <-]; exists leaf, rest; eexists; cbn [Details IP SANs Hostname
                                                     HostnameInCert];
    match goal with |- context [check_window now leaf (verify_chain _ _ _ _ ?h ?n ?d)] =>
      destruct (validation_spec leaf (leaf :: rest) h n d)
        as (Hflag & Hvalid & _ & Hdom & _)
    end; try done;
    (split_and!; [done|reflexivity|done|done|done|done|..]).
  all: try (intros H; by destruct (H name names)).
  intros ? ? [= <- <-]. done.
Qed.

(** A fetch by address that fails leaves its receiver as it was. *)
Lemma fetchFromIP_error cd ip port (dialer : Dialer) cd' msg :
  fetchFromIPWithDialer SystemCertPool Verify now Time_String IP_String
    LookupAddr cd ip port dialer = (cd', Some msg) ->
  cd' = cd.
Proof.
  unfold fetchFromIPWithDialer.
  destruct (dialer "tcp" (IP_String ip +:+ ":" +:+ pretty port))
    as [[[|leaf rest]|ty]|err]; try (by intros [= <-]).
  by destruct (reverseDNSLookup IP_String LookupAddr ip).
Qed.

End Probe_records.

Lemma fetchFromDomain_valid_iff_witness :
  scraper.Valid
    (scraper.fetchFromDomainWithDialer (inr "no system roots")
       (fun _ _ => None) 1700000000 pretty scraper.CertDetails_zero
       "example.com" fixtures.mockDialer).1 = true.
Proof.
  destruct (fetchFromDomain_valid_iff (inr "no system roots")
              (fun _ _ => None) 1700000000 pretty scraper.CertDetails_zero
              "example.com" fixtures.mockDialer _ eq_refl)
    as (leaf & rest & Hdial & _ & _ & _ & _ & _ & Hvalid & _).
  injection Hdial as <- <-. apply Hvalid. split; [reflexivity|simpl; lia].
Defined.

Lemma fetchFromIP_hostname_witness :
  scraper.Hostname
    (scraper.fetchFromIPWithDialer (inr "no system roots")
       (fun _ _ => None) 1700000000 pretty (fun _ => "192.0.2.1")
       (fun _ => Some (inl ["host.example."]))
       scraper.IPCertDetails_zero [192; 0; 2; 1] 443 fixtures.mockDialer).1
  = "host.example".
Proof.
  destruct (fetchFromIP_hostname (inr "no system roots")
              (fun _ _ => None) 1700000000 pretty (fun _ => "192.0.2.1")
              (fun _ => Some (inl ["host.example."]))
              scraper.IPCertDetails_zero [192; 0; 2; 1] 443
              fixtures.mockDialer _ eq_refl)
    as (leaf & rest & details & _ & _ & _ & _ & _ & _ & Hname & _).
  destruct (Hname "host.example." [] eq_refl) as (Hhost & _).
  exact Hhost.
Defined.

(** * [cmd/tls-scrape/config.go] *)

Section validateConfig_facts.
Import config.

(** X11. [validateConfig] accepts a configuration exactly when one of
    [FQDN], [FilePath], [IPAddr] and [Subnet] is non-empty, and then the
    message is empty; with none it asks for one, with more than one it
    refuses.  No other field is looked at: the concurrency limit, the port
    and the output options pass whatever their values. *)
Theorem validateConfig_exactly_one (config : Config) :
  ((validateConfig config).1 = true <-> length (given config) = 1%nat)
  /\ ((validateConfig config).1 = true -> (validateConfig config).2 = "")
  /\ (length (given config) = 0%nat ->
      validateConfig config
      = (false, "You must specify one of: fqdn, filepath, ip, or subnet."))
  /\ ((1 < length (given config))%nat ->
      validateConfig config
      = (false, "You can only specify one of: fqdn, filepath, ip, or subnet."))
  /\ (forall config',
        FQDN config' = FQDN config -> FilePath config' = FilePath config ->
        IPAddr config' = IPAddr config -> Subnet config' = Subnet config ->
        validateConfig config' = validateConfig config).
Proof.
  assert (Hcount : forall (s : string) (l : list string),
            length (filter (fun s => s <> "") (s :: l))
            = ((if negb (bool_decide (s = "")) then 1 else 0)
               + length (filter (fun s => s <> "") l))%nat).
  { intros s l. rewrite filter_cons.
    destruct (decide (s <> "")) as [Hs|Hs].
    - by rewrite bool_decide_eq_false_2.
    - rewrite bool_decide_eq_true_2; [done|]. by destruct (decide (s = "")). }
  split_and!.
  5: { intros config' H1 H2 H3 H4. unfold validateConfig.
       by rewrite H1, H2, H3, H4. }
  all: unfold validateConfig, given; rewrite ?Hcount, ?filter_nil;
    generalize (negb (bool_decide (FQDN config = "")))
               (negb (bool_decide (FilePath config = "")))
               (negb (bool_decide (IPAddr config = "")))
               (negb (bool_decide (Subnet config = "")));
    intros [] [] [] []; vm_compute; try split; intros; congruence || lia.
Qed.

End validateConfig_facts.

(** * [ParsePort] *)

Section ParsePort_facts.
Import ip.

Lemma digit_of_pretty_N_char (d : N) :
  (d < 10)%N -> digit_of (pretty_N_char d) = Some (Z.of_N d).
Proof.
  intros Hd.
  assert (d = 0 \/ d = 1 \/ d = 2 \/ d = 3 \/ d = 4 \/ d = 5 \/ d = 6
          \/ d = 7 \/ d = 8 \/ d = 9)%N as Hcases by lia.
  repeat (destruct Hcases as [->|Hcases]; [reflexivity|]).
  by subst d.
Qed.

(** Reading back the digits that [pretty] writes in front of [s]. *)
Lemma digits_value_pretty_N_go (x : N) : forall s,
  digits_value (pretty_N_go x s) 0 = digits_value s (Z.of_N x).
Proof.
  induction (N.lt_wf_0 x) as [x _ IH]. intros s.
  destruct (decide (x = 0)%N) as [->|Hx]; [by rewrite pretty_N_go_0|].
  rewrite pretty_N_go_step by lia.
  rewrite IH by (apply N.div_lt; lia).
  cbn [digits_value].
  rewrite digit_of_pretty_N_char by (apply N.mod_lt; lia).
  f_equal. rewrite N2Z.inj_div, N2Z.inj_mod.
  pose proof (Z.div_mod (Z.of_N x) 10 ltac:(lia)). change (Z.of_N 10) with 10.
  lia.
Qed.

(** [strconv.Atoi] reads a positive number of type [int] back from its
    decimal text. *)
Lemma Atoi_pretty (n : Z) : 0 < n < 2 ^ 63 -> Atoi (pretty n) = Some n.
Proof.
  intros Hn. destruct n as [|x|x]; try lia.
  change (pretty (Z.pos x)) with (pretty (N.pos x)).
  unfold pretty, pretty_N. destruct (decide (N.pos x = 0%N)) as [|_]; [done|].
  pose proof (digits_value_pretty_N_go (N.pos x) "") as Hval.
  cbn [digits_value] in Hval. change (Z.of_N (N.pos x)) with (Z.pos x) in Hval.
  unfold Atoi. destruct (pretty_N_go (N.pos x) "") as [|ch rest] eqn:Hs.
  { cbn in Hval. by injection Hval. }
  destruct (Ascii.eqb_spec ch "-") as [->|_]; [done|].
  destruct (Ascii.eqb_spec ch "+") as [->|_]; [done|].
  rewrite Hval.
  destruct (Z.leb_spec (- 2 ^ 63) (Z.pos x)), (Z.ltb_spec (Z.pos x) (2 ^ 63));
    done || lia.
Qed.

(** X12. [ParsePort] returns a port only between 1 and 65535; the empty
    text gives the default 443; the decimal text of every port between 1
    and 65535 gives that port back; and an error is one of the two
    messages, the second one exactly for a number outside the range. *)
Theorem ParsePort_range :
  ParsePort "" = inl 443
  /\ (forall port p, ParsePort port = inl p -> 1 <= p <= 65535)
  /\ (forall p, 1 <= p <= 65535 -> ParsePort (pretty p) = inl p)
  /\ (forall port msg,
        ParsePort port = inr msg ->
        port <> ""
        /\ ((Atoi port = None /\ msg = "invalid port number: " +:+ port)
            \/ exists n, Atoi port = Some n /\ (n < 1 \/ 65535 < n)
                         /\ msg = "port number out of range: " +:+ pretty n)).
Proof.
  split_and!.
  - reflexivity.
  - intros port p. unfold ParsePort. case_bool_decide; [intros [= <-]; lia|].
    destruct (Atoi port) as [n|]; [|done].
    destruct (Z.ltb_spec n 1), (Z.ltb_spec 65535 n); cbn [orb]; try done.
    intros [= <-]. lia.
  - intros p Hp. unfold ParsePort.
    assert (Hne : pretty p <> "").
    { intros Hempty. pose proof (Atoi_pretty p ltac:(lia)) as Ha.
      by rewrite Hempty in Ha. }
    rewrite bool_decide_eq_false_2 by done.
    rewrite Atoi_pretty by lia.
    destruct (Z.ltb_spec p 1), (Z.ltb_spec 65535 p); cbn [orb]; done || lia.
  - intros port msg. unfold ParsePort. case_bool_decide; [done|].
    split; [done|].
    destruct (Atoi port) as [n|]; [|left; split; [done|congruence]].
    right. exists n.
    destruct (Z.ltb_spec n 1), (Z.ltb_spec 65535 n); cbn [orb] in *; try done;
      (split_and!; [done|lia|congruence]).
Qed.

Example ParsePort_table :
  ParsePort "8080" = inl 8080
  /\ ParsePort "0" = inr "port number out of range: 0"
  /\ ParsePort "65536" = inr "port number out of range: 65536"
  /\ ParsePort "invalid" = inr "invalid port number: invalid"
  /\ ParsePort "+443" = inl 443
  /\ ParsePort "-1" = inr "port number out of range: -1".
Proof. split_and!; reflexivity. Qed.

End ParsePort_facts.

(** * [internal/helper/io.go] *)

Section ReadCSV_facts.
Import io.

Variable ReadAll : string -> list (list string) + string.

(** The search returns the position of the first field equal to the
    header, counted from [index], and -1 when there is none. *)
Lemma find_column_spec (fields : list string) (csvheader : string) :
  forall index, 0 <= index ->
  ((csvheader ∉ fields) /\ find_column fields csvheader index = -1)
  \/ (exists c : nat,
        fields !! c = Some csvheader
        /\ (forall c', (c' < c)%nat -> fields !! c' <> Some csvheader)
        /\ find_column fields csvheader index = index + Z.of_nat c).
Proof.
  induction fields as [|f fields IH]; intros index Hindex.
  - left. split; [apply not_elem_of_nil|done].
  - cbn [find_column]. case_bool_decide as Hf.
    + right. exists 0%nat. subst f. split_and!; [done|intros; lia|lia].
    + destruct (IH (index + 1) ltac:(lia)) as [[Hnot Hfind]|(c & Hc & Hfirst & Hfind)].
      * left. split; [|done]. rewrite not_elem_of_cons. split; [congruence|done].
      * right. exists (S c). split_and!; [done| |lia].
        intros [|c'] Hlt; cbn; [congruence|]. apply Hfirst. lia.
Qed.

(** The loop over the records keeps the cell of the column in every record
    that has one. *)
Lemma collect_column_spec (lines : list (list string)) (c : nat) :
  forall websites,
  collect_column lines (Z.of_nat c) websites
  = Returns (websites ++ omap (fun line => line !! c) lines).
Proof.
  induction lines as [|line lines IH]; intros websites.
  - cbn. by rewrite app_nil_r.
  - cbn [collect_column omap list_omap].
    destruct (Z.ltb_spec (Z.of_nat c) (Z.of_nat (length line))) as [Hlt|Hge].
    + unfold index. rewrite Nat2Z.id.
      destruct (lookup_lt_is_Some_2 line c ltac:(lia)) as [cell Hcell].
      rewrite Hcell. cbn [mbind outcome_bind]. rewrite IH.
      by rewrite <- app_assoc.
    + rewrite (lookup_ge_None_2 line c) by lia. apply IH.
Qed.

(** X13. [ReadCSV] never panics.  An error of opening or reading is
    returned as it is; no record at all gives [empty CSV file]; a header
    record without the wanted name gives [column header '...' not found];
    otherwise the result is, for the first column whose header is the
    wanted name, the cell of that column of each later record, in order,
    records too short to have one left out; when all records have the
    header's length that is one entry per record. *)
Theorem ReadCSV_column (filename csvheader : string) :
  exists r,
    ReadCSV ReadAll filename csvheader = Returns r
    /\ (forall err, ReadAll filename = inr err -> r = inr err)
    /\ (ReadAll filename = inl [] -> r = inr "empty CSV file")
    /\ (forall header records,
          ReadAll filename = inl (header :: records) ->
          (csvheader ∉ header ->
           r = inr ("column header '" +:+ csvheader +:+ "' not found"))
          /\ (forall c : nat,
                header !! c = Some csvheader ->
                (forall c', (c' < c)%nat -> header !! c' <> Some csvheader) ->
                r = inl (omap (fun record => record !! c) records)
                /\ (Forall (fun record => length record = length header)
                           records ->
                    exists websites,
                      r = inl websites
                      /\ length websites = length records
                      /\ forall i record,
                           records !! i = Some record ->
                           websites !! i = record !! c))).
Proof.
  unfold ReadCSV.
  destruct (ReadAll filename) as [[|header records]|err].
  - eexists. split; [reflexivity|]. split_and!; try done.
  - cbn [length bool_decide index lookup list_lookup mbind outcome_bind drop].
    rewrite bool_decide_eq_false_2 by done.
    change (index (header :: records) 0) with (Returns (A:=list string) header).
    cbn [mbind outcome_bind].
    destruct (find_column_spec header csvheader 0 ltac:(lia))
      as [[Hnot Hfind]|(c & Hc & Hfirst & Hfind)]; rewrite Hfind.
    + eexists. split; [reflexivity|].
      split_and!; try done. intros ? ? [= <- <-]. split; [done|].
      intros c Hc. destruct Hnot. by eapply list_elem_of_lookup_2.
    + rewrite Z.add_0_l.
      destruct (Z.eqb_spec (Z.of_nat c) (-1)) as [|_]; [lia|].
      rewrite collect_column_spec, drop_0. cbn [mbind outcome_bind app].
      eexists. split; [reflexivity|].
      split_and!; try done. intros ? ? [= <- <-]. split.
      { intros Hnot. destruct Hnot. by eapply list_elem_of_lookup_2. }
      intros c0 Hc0 Hfirst0.
      assert (c0 = c) as ->.
      { destruct (Nat.lt_trichotomy c0 c) as [Hlt|[->|Hlt]]; [|done|].
        - by destruct (Hfirst c0 Hlt).
        - by destruct (Hfirst0 c Hlt). }
      split; [done|]. intros Hrect.
      assert (Hc_lt : (c < length header)%nat) by (by eapply lookup_lt_Some).
      eexists. split; [reflexivity|].
      clear -Hrect Hc_lt. induction Hrect as [|record records Hlen _ [IHlen IH]].
      { split; [done|]. intros i record Hi. by rewrite lookup_nil in Hi. }
      destruct (lookup_lt_is_Some_2 record c ltac:(lia)) as [cell Hcell].
      cbn [omap list_omap]. rewrite Hcell. cbn [length]. split; [by rewrite IHlen|].
      intros [|i] record' Hi; cbn in Hi |- *; [by injection Hi as <-|by apply IH].
  - eexists. split; [reflexivity|]. split_and!; try done. by intros ? [= ->].
Qed.

End ReadCSV_facts.

(** The table of [TestFormatStringSlice]. *)
Example formatStringSlice_table :
  io.formatStringSlice [] = "null"
  /\ io.formatStringSlice ["https://example.com/crl"]
     = "https://example.com/crl"
  /\ io.formatStringSlice ["https://example.com/crl1";
                           "https://example.com/crl2"]
     = "https://example.com/crl1, https://example.com/crl2".
Proof. split_and!; reflexivity. Qed.

Example ReadCSV_table :
  io.ReadCSV (fun _ => inl [["url"; "name"; "description"];
                            ["example.com"; "Example"; "An example website"];
                            ["test.com"; "Test"; "A test website"]])
             "test.csv" "name"
  = Returns (inl ["Example"; "Test"])
  /\ io.ReadCSV (fun _ => inl [["url"; "name"]; ["example.com"; "Example"]])
                "test.csv" "nonexistent"
     = Returns (inr "column header 'nonexistent' not found").
Proof. split; reflexivity. Qed.

(** * The callers of [ScrapeTLS] *)

Section ScrapeTLS_results.
Import scraper.

Variable fetchFromDomain : nat -> string -> CertDetails * error.

Lemma ScrapeTLS_exists (websites : list string) (concurrency : Z) :
  1 <= concurrency ->
  exists r, ScrapeTLS fetchFromDomain websites concurrency r.
Proof.
  intros Hc.
  destruct (can_finish fetchFromDomain websites concurrency Hc _
              (spawn websites) eq_refl (spawn_consistent _ websites))
    as (s & Hrun & Hfin).
  exists (collect s). split; [lia|]. by exists s.
Qed.


(** What a call returns: the records of the successful probes in some
    order, and an error whose entries are the failed targets, each with an
    error one of its probes gave. *)
Lemma ScrapeTLS_result (websites : list string) (concurrency : Z) details err :
  ScrapeTLS fetchFromDomain websites concurrency (details, err) ->
  details ≡ₚ succeeded fetchFromDomain websites
  /\ (err = None <-> failed fetchFromDomain websites = [])
  /\ (forall d, d ∈ dom (scan.errors_of err)
                <-> d ∈ (failed fetchFromDomain websites).*1)
  /\ (forall d e, scan.errors_of err !! d = Some e ->
                  (d, e) ∈ failed fetchFromDomain websites).
Proof.
  intros (_ & s & Hrun & Hfin & Hr).
  assert (Hcons : consistent fetchFromDomain websites s)
    by (eapply rtc_consistent; [apply spawn_consistent|done]).
  destruct (collect_finished _ websites s Hcons Hfin) as (Hdet & Hnone & Hsome).
  rewrite <- Hr in Hdet, Hnone, Hsome. cbn [fst snd] in Hdet, Hnone, Hsome.
  split; [done|].
  destruct (decide (failed fetchFromDomain websites = [])) as [Hnil|Hne].
  - rewrite (Hnone Hnil), Hnil. cbn [scan.errors_of]. split_and!.
    + done.
    + intros d. rewrite dom_empty_L. cbn. rewrite elem_of_nil.
      split; [by intros ?%elem_of_empty|done].
    + intros d e Hd. by rewrite lookup_empty in Hd.
  - destruct (Hsome Hne) as (me & -> & Hdom & Hlook). cbn [scan.errors_of].
    split_and!.
    + split; [done|by intros ?].
    + intros d. by rewrite Hdom, elem_of_list_to_set.
    + done.
Qed.

End ScrapeTLS_results.

Section ScrapeTLS_error_text.
Import scraper.

Variable fetchFromDomain : nat -> string -> CertDetails * error.

(** X14. The error that [ScrapeTLS] returns can be rendered: its map holds
    no nil error, so [Error] returns a text whatever the order of the
    visit, and for every target with a failed probe the text has a line
    with the target and the message of one of its failed probes. *)
Theorem ScrapeTLS_error_renders (websites : list string) (concurrency : Z)
    (details : list CertDetails) (me : MultiError)
    (visit : gmap string error -> list (string * error)) :
  ScrapeTLS fetchFromDomain websites concurrency (details, Some me) ->
  range_order (Errors me) (visit (Errors me)) ->
  (forall d, Errors me !! d <> Some None)
  /\ exists text,
       Error me visit = Returns text
       /\ forall i site0,
            websites !! i = Some site0 ->
            (fetchFromDomain i site0).2 <> None ->
            exists j msg,
              websites !! j = Some site0
              /\ (fetchFromDomain j site0).2 = Some msg
              /\ Contains text (entry_line site0 msg) = true.
Proof.
  intros Hrun Horder.
  destruct (ScrapeTLS_result _ _ _ _ _ Hrun) as (_ & _ & Hdom & Hlook).
  cbn [scan.errors_of] in Hdom, Hlook.
  assert (Hnil : forall d, Errors me !! d <> Some None).
  { intros d Hd. apply Hlook, elem_of_failed in Hd as (? & _ & _ & Hne).
    done. }
  split; [done|].
  destruct (Error_returns_lines me visit Horder Hnil) as (entries & Htext & Hin).
  eexists. split; [exact Htext|].
  intros i site0 Hi Hbad.
  assert (Hsite : site0 ∈ dom (Errors me)).
  { apply Hdom, list_elem_of_fmap.
    exists (site0, (fetchFromDomain i site0).2). split; [done|].
    apply elem_of_failed. eauto. }
  apply elem_of_dom in Hsite as [e He].
  pose proof (Hlook _ _ He) as Hfail.
  apply elem_of_failed in Hfail as (j & Hj & Hfetch & Hne).
  destruct e as [msg|]; [|done].
  exists j, msg. split_and!; [done..|].
  apply Contains_app_l, Contains_app_l, Contains_join.
  apply list_elem_of_fmap. exists (site0, msg). split; [done|].
  by apply Hin.
Qed.

End ScrapeTLS_error_text.

Section ScanDomains_facts.
Import scraper scan.

Variable fetchFromDomain : nat -> nat -> string -> CertDetails * error.

Abbreviation probes_from k chunks :=
  (mjoin (imap (fun j chunk => probes (fetchFromDomain (k + j)) chunk) chunks)).







End ScanDomains_facts.

Lemma ScrapeTLS_error_renders_witness :
  exists details me text,
    scraper.ScrapeTLS fixtures.demo_fetch
      ["reachable.example"; "unreachable.example"] 2 (details, Some me)
    /\ scraper.Error me map_to_list = Returns text
    /\ Contains text (scraper.entry_line "unreachable.example"
                        "dial tcp: connection refused") = true.
Proof.
  destruct (ScrapeTLS_exists fixtures.demo_fetch
              ["reachable.example"; "unreachable.example"] 2 ltac:(lia))
    as [[details err] Hrun].
  destruct (ScrapeTLS_result _ _ _ _ _ Hrun) as (_ & Herr & _).
  destruct err as [me|].
  2: { pose proof (proj1 Herr eq_refl) as Hnone. vm_compute in Hnone.
       discriminate Hnone. }
  assert (Horder : scraper.range_order (scraper.Errors me)
                     (map_to_list (scraper.Errors me)))
    by (unfold scraper.range_order; reflexivity).
  destruct (ScrapeTLS_error_renders fixtures.demo_fetch _ 2 details me
              map_to_list Hrun Horder) as (_ & text & Htext & Hlines).
  assert (Hbad : (fixtures.demo_fetch 1 "unreachable.example").2 <> None)
    by (vm_compute; discriminate).
  destruct (Hlines 1%nat "unreachable.example" eq_refl Hbad)
    as (j & msg & Hj & Hmsg & Hline).
  exists details, me, text. split_and!; [exact Hrun|exact Htext|].
  destruct j as [|[|j]]; [discriminate Hj| |discriminate Hj].
  vm_compute in Hmsg. injection Hmsg as <-. exact Hline.
Defined.

(** * [ParseIPOrSubnet] *)

Section ParseIPOrSubnet_facts.
Import helper ip.

Variable ParseIP : string -> option IP.
Variable read_cidr : string -> cidr_text.

Abbreviation ParseIPOrSubnet' := (ParseIPOrSubnet ParseIP read_cidr).

(** X16. A text with a slash is handed to [parseSubnet], whatever else it
    holds.  A text without one that is no address is refused with
    [invalid IP address: ...]; an address gives the range from the address
    to itself, in 4-byte form when it has one, and the enumeration of that
    range is the address alone, unless the address is all 0xFF bytes, when
    the enumeration never returns. *)
Theorem ParseIPOrSubnet_single (ipOrSubnet : string) :
  (Contains ipOrSubnet "/" = true ->
     ParseIPOrSubnet' ipOrSubnet = parseSubnet (read_cidr ipOrSubnet))
  /\ (Contains ipOrSubnet "/" = false ->
      (ParseIP ipOrSubnet = None ->
         ParseIPOrSubnet' ipOrSubnet
         = Returns (inr ("invalid IP address: " +:+ ipOrSubnet)))
      /\ (forall ip, ParseIP ipOrSubnet = Some ip -> wf_ip ip ->
            exists a,
              ParseIPOrSubnet' ipOrSubnet
              = Returns (inl {| Start := a; End := a |})
              /\ (To4 ip = Some a \/ (To4 ip = None /\ a = ip))
              /\ wf_ip a
              /\ (~ Forall (eq 255) a ->
                  forall fuel, (2 <= fuel)%nat ->
                    GetIPsInRange fuel {| Start := a; End := a |}
                    = Some (Returns [a]))
              /\ (Forall (eq 255) a ->
                  forall fuel,
                    GetIPsInRange fuel {| Start := a; End := a |} = None))).
Proof.
  unfold ParseIPOrSubnet. split; [by intros ->|]. intros ->. split.
  { by intros ->. }
  intros ip -> Hwf.
  set (a := match To4 ip with Some ip4 => ip4 | None => ip end).
  assert (Hform : To4 ip = Some a \/ (To4 ip = None /\ a = ip)).
  { unfold a. destruct (To4 ip); auto. }
  assert (Hwfa : wf_ip a).
  { destruct Hform as [H4|[_ ->]]; [by eapply To4_wf|done]. }
  exists a. split_and!; [done..| |].
  - intros Hnot fuel Hfuel. unfold GetIPsInRange. cbn [Start End].
    pose proof (ip_val_bound a Hwfa) as Hb.
    assert (Hmax : ip_val a + 1 < 256 ^ Z.of_nat (length a)).
    { destruct (decide (ip_val a = 256 ^ Z.of_nat (length a) - 1)) as [E|];
        [|lia]. destruct Hnot. by apply all_ones_of_val. }
    rewrite (GetIPsInRange_loop_run a 1 fuel a []) by (done || lia).
    destruct (decide (1 < fuel)%nat); [done|lia].
  - intros Hall fuel. unfold GetIPsInRange. cbn [Start End].
    by apply GetIPsInRange_loop_all_ones.
Qed.

End ParseIPOrSubnet_facts.

Lemma ParseIPOrSubnet_single_witness :
  ip.ParseIPOrSubnet
    (fun _ => Some (helper.v4InV6Prefix ++ [10; 0; 0; 1]))
    (fun _ => helper.Malformed) "10.0.0.1"
  = Returns (inl {| helper.Start := [10; 0; 0; 1];
                    helper.End := [10; 0; 0; 1] |})
  /\ helper.GetIPsInRange 2 {| helper.Start := [10; 0; 0; 1];
                               helper.End := [10; 0; 0; 1] |}
     = Some (Returns [[10; 0; 0; 1]]).
Proof.
  destruct (ParseIPOrSubnet_single
              (fun _ => Some (helper.v4InV6Prefix ++ [10; 0; 0; 1]))
              (fun _ => helper.Malformed) "10.0.0.1") as [_ Hplain].
  destruct (Hplain eq_refl) as [_ Haddr].
  destruct (Haddr (helper.v4InV6Prefix ++ [10; 0; 0; 1]) eq_refl)
    as (a & Hrun & Hform & _ & Henum & _).
  { repeat constructor; unfold helper.is_byte; lia. }
  destruct Hform as [H4|[H4 _]]; [|discriminate H4].
  injection H4 as <-. split; [exact Hrun|].
  apply Henum; [|lia]. intros Hall. inversion Hall. discriminate.
Defined.

(** * The block of a subnet *)

Section Subnet_block.
Import helper.

Lemma CIDRMask_loop_zero l : CIDRMask_loop l 0 = replicate l 0.
Proof. induction l as [|l IH]; [done|]. cbn. by rewrite IH. Qed.

Lemma ip_val_zeros l : ip_val (replicate l 0) = 0.
Proof.
  induction l as [|l IH]; [done|].
  cbn [replicate]. rewrite ip_val_cons, IH. lia.
Qed.

Lemma ip_val_ones l : ip_val (replicate l 255) = 256 ^ Z.of_nat l - 1.
Proof.
  induction l as [|l IH]; [done|].
  cbn [replicate]. rewrite ip_val_cons, IH, length_replicate.
  rewrite Nat2Z.inj_succ, Z.pow_succ_r by lia. lia.
Qed.

(** The partial byte of a mask, checked on every byte and bit count. *)
Lemma byte_mask_facts (x n : Z) :
  0 <= x < 256 -> 0 <= n < 8 ->
  Z.land x (byte_not (Z.shiftr 255 n)) = x / 2 ^ (8 - n) * 2 ^ (8 - n)
  /\ Z.lor (Z.land x (byte_not (Z.shiftr 255 n)))
           (byte_not (byte_not (Z.shiftr 255 n)))
     = x / 2 ^ (8 - n) * 2 ^ (8 - n) + 2 ^ (8 - n) - 1
  /\ 0 <= x / 2 ^ (8 - n) * 2 ^ (8 - n)
  /\ x / 2 ^ (8 - n) * 2 ^ (8 - n) + 2 ^ (8 - n) - 1 < 256.
Proof.
  intros Hx Hn.
  assert (Hall : Forall (fun x => Forall (fun n =>
            Z.land x (byte_not (Z.shiftr 255 n)) = x / 2 ^ (8 - n) * 2 ^ (8 - n)
            /\ Z.lor (Z.land x (byte_not (Z.shiftr 255 n)))
                     (byte_not (byte_not (Z.shiftr 255 n)))
               = x / 2 ^ (8 - n) * 2 ^ (8 - n) + 2 ^ (8 - n) - 1
            /\ 0 <= x / 2 ^ (8 - n) * 2 ^ (8 - n)
            /\ x / 2 ^ (8 - n) * 2 ^ (8 - n) + 2 ^ (8 - n) - 1 < 256)
            (seqZ 0 8)) (seqZ 0 256)).
  { apply (bool_decide_unpack _). vm_compute. exact I. }
  rewrite Forall_forall in Hall.
  specialize (Hall x ltac:(apply elem_of_seqZ; lia)).
  rewrite Forall_forall in Hall.
  apply (Hall n). apply elem_of_seqZ. lia.
Qed.

Lemma byte_full_mask (x : Z) :
  0 <= x < 256 -> Z.land x 255 = x /\ Z.lor x (byte_not 255) = x.
Proof.
  intros Hx. split.
  - change 255 with (Z.ones 8). rewrite Z.land_ones by lia.
    apply Z.mod_small. lia.
  - change (byte_not 255) with 0. apply Z.lor_0_r.
Qed.

(** Masking keeps the address down to a multiple of the block size, and
    setting the bits outside the mask adds the block size less one. *)
Lemma masked_val (b : list Z) : forall n,
  wf_ip b -> 0 <= n <= 8 * Z.of_nat (length b) ->
  let mask := CIDRMask_loop (length b) n in
  let size := 2 ^ (8 * Z.of_nat (length b) - n) in
  let start := zip_with Z.land b mask in
  let end_ := zip_with (fun x y => Z.lor x (byte_not y)) start mask in
  wf_ip start /\ wf_ip end_
  /\ ip_val start = ip_val b / size * size
  /\ ip_val end_ = ip_val start + size - 1.
Proof.
  induction b as [|x b IH]; intros n Hwf Hn.
  - cbn in Hn. assert (n = 0) as -> by lia. cbn. split_and!; done.
  - apply Forall_cons in Hwf as [Hx Hb]. red in Hx.
    pose proof (ip_val_bound b Hb) as Hvb.
    cbn [length] in Hn. cbn [length CIDRMask_loop].
    rewrite Nat2Z.inj_succ in Hn |- *.
    set (P := 256 ^ Z.of_nat (length b)) in *.
    assert (HP : P = 2 ^ (8 * Z.of_nat (length b))).
    { unfold P. change 256 with (2 ^ 8). by rewrite <- Z.pow_mul_r by lia. }
    destruct (Z.leb_spec 8 n) as [Hfull|Hpart].
    + destruct (IH (n - 8) Hb ltac:(lia)) as (Hws & Hwe & Hvs & Hve).
      destruct (byte_full_mask x Hx) as [Hland Hlor].
      cbn zeta. cbn [zip_with]. rewrite Hland, Hlor.
      replace (8 * Z.succ (Z.of_nat (length b)) - n)
        with (8 * Z.of_nat (length b) - (n - 8)) by lia.
      set (size := 2 ^ (8 * Z.of_nat (length b) - (n - 8))) in *.
      assert (Hsize : 0 < size) by (apply Z.pow_pos_nonneg; lia).
      assert (HPsize : P = 2 ^ (n - 8) * size).
      { rewrite HP. unfold size. rewrite <- Z.pow_add_r by lia. f_equal. lia. }
      split_and!.
      * by apply Forall_cons.
      * by apply Forall_cons.
      * rewrite !ip_val_cons, length_zip_with, CIDRMask_loop_length,
          Nat.min_id. fold P. rewrite Hvs.
        replace (x * P + ip_val b) with (x * 2 ^ (n - 8) * size + ip_val b)
          by (rewrite HPsize; lia).
        rewrite Z.div_add_l by lia. rewrite HPsize. lia.
      * rewrite !ip_val_cons, !length_zip_with, CIDRMask_loop_length,
          !Nat.min_id. rewrite Hve. lia.
    + rewrite CIDRMask_loop_zero. cbn zeta. cbn [zip_with].
      destruct (byte_mask_facts x n Hx ltac:(lia))
        as (Hland & Hlor & Hlow & Hhigh).
      rewrite Hlor, Hland.
      assert (Hzeros : zip_with Z.land b (replicate (length b) 0)
                       = replicate (length b) 0).
      { clear. induction b as [|y b IH]; [done|].
        cbn. by rewrite IH, Z.land_0_r. }
      rewrite Hzeros.
      assert (Hones : zip_with (fun x y => Z.lor x (byte_not y))
                        (replicate (length b) 0) (replicate (length b) 0)
                      = replicate (length b) 255).
      { clear. induction (length b) as [|l IH]; [done|]. cbn. by rewrite IH. }
      rewrite Hones.
      set (k := 2 ^ (8 - n)) in *.
      assert (Hk : 0 < k) by (apply Z.pow_pos_nonneg; lia).
      assert (Hsize : 2 ^ (8 * Z.succ (Z.of_nat (length b)) - n) = k * P).
      { rewrite HP. unfold k. rewrite <- Z.pow_add_r by lia. f_equal. lia. }
      rewrite Hsize.
      assert (HPpos : 0 < P) by (unfold P; apply Z.pow_pos_nonneg; lia).
      pose proof (Z.mul_div_le x k Hk) as Hle.
      split_and!.
      * apply Forall_cons. split; [red; lia|].
        apply Forall_replicate. red. lia.
      * apply Forall_cons. split; [red; lia|].
        apply Forall_replicate. red. lia.
      * rewrite !ip_val_cons, length_replicate, ip_val_zeros. fold P.
        replace (k * P) with (P * k) by lia.
        rewrite <- Z.div_div by lia.
        rewrite Z.div_add_l, (Z.div_small (ip_val b) P) by lia.
        rewrite !Z.add_0_r. ring.
      * rewrite !ip_val_cons, !length_replicate, ip_val_zeros, ip_val_ones.
        fold P. lia.
Qed.

(** [parseSubnet] on an address it keeps in its own family. *)
Lemma parseSubnet_run (a : Addr) (n : Z) :
  plain_addr a -> 0 <= n <= BitLen a ->
  let mask := CIDRMask_loop (length (addr_bytes a)) n in
  let start := zip_with Z.land (addr_bytes a) mask in
  parseSubnet (Reading a n)
  = Returns (inl {| Start := start;
                    End := zip_with (fun x y => Z.lor x (byte_not y))
                                    start mask |}).
Proof.
  intros Hplain Hn.
  assert (Hbits : Z.to_nat (BitLen a / 8) = length (addr_bytes a)).
  { destruct a as [b|b]; cbn [plain_addr BitLen addr_bytes] in Hplain |- *.
    - by rewrite Hplain.
    - by destruct Hplain as [-> _]. }
  assert (Hmask : CIDRMask n (BitLen a)
                  = Some (CIDRMask_loop (length (addr_bytes a)) n)).
  { rewrite <- Hbits. apply CIDRMask_in_range; [|done]. destruct a; auto. }
  cbn zeta. set (mask := CIDRMask_loop (length (addr_bytes a)) n) in *.
  assert (Hlen : length mask = length (addr_bytes a))
    by apply CIDRMask_loop_length.
  unfold parseSubnet, ParseCIDR. rewrite Hmask.
  destruct (n <? 0) eqn:E1; [apply Z.ltb_lt in E1; lia|].
  destruct (BitLen a <? n) eqn:E2; [apply Z.ltb_lt in E2; lia|].
  cbn [orb IPNet_Mask].
  assert (Hip : match To4 (As16 a) with Some ip4 => ip4 | None => As16 a end
                = addr_bytes a).
  { destruct a as [b|b]; simpl in Hplain.
    - by rewrite To4_of_As16_v4.
    - destruct Hplain as [_ Hnone]. cbn [As16 addr_bytes]. by rewrite Hnone. }
  rewrite Hip, Mask_same_length by done. unfold default. cbn [from_option id].
  assert (Hloop :
    parseSubnet_loop (zip_with Z.land (addr_bytes a) mask) mask 0 (length mask)
    = Returns (zip_with (fun x y => Z.lor x (byte_not y))
                        (zip_with Z.land (addr_bytes a) mask) mask)).
  { assert (length (zip_with Z.land (addr_bytes a) mask) = length mask)
      by (rewrite length_zip_with; lia).
    by apply (parseSubnet_loop_zip _ mask [] []). }
  by rewrite Hloop.
Qed.

(** X17. For a CIDR whose address [parseSubnet] keeps in its own family,
    with a prefix of [n] bits: the block has [2 ^ (BitLen - n)] addresses;
    the start of the range is the address rounded down to a multiple of
    that size and the end is the last address of the block, so that the
    address lies in the range; and [GetIPsInRange] on the range returns
    the whole block, network and broadcast address included, in increasing
    order, unless the block ends at the all-ones address, when it never
    returns. *)
Theorem parseSubnet_block (a : Addr) (n : Z) :
  plain_addr a -> wf_ip (addr_bytes a) -> 0 <= n <= BitLen a ->
  exists start end_,
    parseSubnet (Reading a n)
    = Returns (inl {| Start := start; End := end_ |})
    /\ length start = length (addr_bytes a)
    /\ length end_ = length (addr_bytes a)
    /\ wf_ip start /\ wf_ip end_
    /\ ip_val start
       = ip_val (addr_bytes a) / 2 ^ (BitLen a - n) * 2 ^ (BitLen a - n)
    /\ ip_val end_ = ip_val start + 2 ^ (BitLen a - n) - 1
    /\ ip_val start <= ip_val (addr_bytes a) <= ip_val end_
    /\ (~ Forall (eq 255) end_ ->
          forall fuel, (Z.to_nat (2 ^ (BitLen a - n)) < fuel)%nat ->
          exists ips,
            GetIPsInRange fuel {| Start := start; End := end_ |}
            = Some (Returns ips)
            /\ Z.of_nat (length ips) = 2 ^ (BitLen a - n)
            /\ forall (k : nat) ip, ips !! k = Some ip ->
                 wf_ip ip /\ length ip = length start
                 /\ ip_val ip = ip_val start + Z.of_nat k)
    /\ (Forall (eq 255) end_ ->
          forall fuel,
            GetIPsInRange fuel {| Start := start; End := end_ |} = None).
Proof.
  intros Hplain Hwf Hn.
  assert (Hbits : BitLen a = 8 * Z.of_nat (length (addr_bytes a))).
  { destruct a as [b|b]; cbn [plain_addr BitLen addr_bytes] in Hplain |- *.
    - by rewrite Hplain.
    - by destruct Hplain as [-> _]. }
  pose proof (parseSubnet_run a n Hplain Hn) as Hrun. cbn zeta in Hrun.
  destruct (masked_val (addr_bytes a) n Hwf ltac:(lia))
    as (Hws & Hwe & Hvs & Hve).
  rewrite <- Hbits in Hvs, Hve.
  set (mask := CIDRMask_loop (length (addr_bytes a)) n) in *.
  set (start := zip_with Z.land (addr_bytes a) mask) in *.
  set (end_ := zip_with (fun x y => Z.lor x (byte_not y)) start mask) in *.
  set (size := 2 ^ (BitLen a - n)) in *.
  assert (Hsize : 0 < size) by (apply Z.pow_pos_nonneg; lia).
  assert (Hls : length start = length (addr_bytes a)).
  { unfold start, mask. rewrite length_zip_with, CIDRMask_loop_length. lia. }
  assert (Hle : length end_ = length (addr_bytes a)).
  { unfold end_, mask. rewrite length_zip_with, CIDRMask_loop_length. lia. }
  exists start, end_. split_and!; [done..| | | |].
  - pose proof (Z.mul_div_le (ip_val (addr_bytes a)) size Hsize).
    pose proof (Z.mod_pos_bound (ip_val (addr_bytes a)) size Hsize).
    pose proof (Z.div_mod (ip_val (addr_bytes a)) size ltac:(lia)).
    lia.
  - pose proof (Z.mul_div_le (ip_val (addr_bytes a)) size Hsize).
    pose proof (Z.mod_pos_bound (ip_val (addr_bytes a)) size Hsize).
    pose proof (Z.div_mod (ip_val (addr_bytes a)) size ltac:(lia)).
    lia.
  - intros Hnot fuel Hfuel.
    pose proof (not_all_ones_val end_ Hwe Hnot) as Hmax.
    unfold GetIPsInRange. cbn [Start End].
    rewrite (GetIPsInRange_loop_run end_ (Z.to_nat size) fuel start [])
      by (done || congruence || lia).
    destruct (decide (Z.to_nat size < fuel)%nat); [|lia].
    eexists. split; [reflexivity|]. cbn [app].
    split; [rewrite length_map, length_seq; lia|].
    intros k ip Hk.
    assert (k < Z.to_nat size)%nat as Hlt.
    { apply lookup_lt_Some in Hk. by rewrite length_map, length_seq in Hk. }
    rewrite list_lookup_fmap, lookup_seq_lt in Hk by done.
    injection Hk as <-. apply NextIP_iter_val; [done|].
    rewrite Hls, <- Hle. lia.
  - intros Hall fuel. unfold GetIPsInRange. cbn [Start End].
    by apply GetIPsInRange_loop_all_ones.
Qed.

End Subnet_block.

Lemma parseSubnet_block_witness :
  helper.parseSubnet (helper.Reading (helper.Addr4 [192; 168; 1; 77]) 24)
  = Returns (inl {| helper.Start := [192; 168; 1; 0];
                    helper.End := [192; 168; 1; 255] |})
  /\ exists ips,
       helper.GetIPsInRange 257 {| helper.Start := [192; 168; 1; 0];
                                   helper.End := [192; 168; 1; 255] |}
       = Some (Returns ips)
       /\ Z.of_nat (length ips) = 256.
Proof.
  destruct (parseSubnet_block (helper.Addr4 [192; 168; 1; 77]) 24)
    as (start & end_ & Hrun & _ & _ & _ & _ & _ & _ & _ & Henum & _).
  - reflexivity.
  - repeat constructor; unfold helper.is_byte; lia.
  - cbn. lia.
  - vm_compute in Hrun. injection Hrun as <- <-.
    split; [reflexivity|].
    destruct (Henum ltac:(intros H; inversion H; discriminate) 257%nat)
      as (ips & Hips & Hlen & _).
    { vm_compute. lia. }
    exists ips. split; [exact Hips|exact Hlen].
Defined.
